(** * The Alpaca websocket client of marketstore ([package api])

    A shallow embedding of [AlpacaWebSocket] and its methods [listen],
    [setReadDeadline], [receiveMessages], [connect], [subscribe] and
    [exchangeMessage], followed by the properties of the streaming client.
    Of the command line client ([package cli]) it embeds
    [NewRemoteClient].

    Conventions.
    - Go strings and byte slices are [string]s (sequences of 8-bit bytes).
    - [time.Duration] is a signed 64-bit count of nanoseconds: a [Z] with
      the wrap-around of its arithmetic written out.  Instants are [Z]
      nanoseconds and [Time.Add] is addition.
    - The websocket connection, the HTTP response of the dial, the logger,
      the ticker and the channels belong to the environment.  Every call
      made on them is recorded as an [event], in program order, and every
      answer the environment gives is read from a script carried by the
      connection ([Conn]) or by the schedule ([choice]).
    - A call returns, panics, or never returns: [outcome]. *)

From Stdlib Require Import List String Ascii ZArith Lia Bool Arith DecimalString DecimalZ.
Import ListNotations.

Local Open Scope string_scope.
Local Open Scope Z_scope.
Local Open Scope list_scope.

Declare Scope gostring_scope.
Delimit Scope gostring_scope with go.
Infix "+++" := String.append (right associativity, at level 60) : gostring_scope.
Local Open Scope gostring_scope.

(** ** Strings *)

(** The double quote, and string literals written with an apostrophe
    wherever the Go literal has a double quote. *)
Definition dquote : ascii := ascii_of_nat 34.

Fixpoint lit (s : string) : string :=
  match s with
  | EmptyString => EmptyString
  | String c s' => String (if Ascii.eqb c "'"%char then dquote else c) (lit s')
  end.

(** [strings.Contains]. *)
Fixpoint Contains (s substr : string) : bool :=
  if String.prefix substr s then true
  else match s with
       | EmptyString => false
       | String _ s' => Contains s' substr
       end.

(** [strings.ReplaceAll s old new] for one-byte [old] and [new]. *)
Fixpoint ReplaceAll (s : string) (old new : ascii) : string :=
  match s with
  | EmptyString => EmptyString
  | String c s' => String (if Ascii.eqb c old then new else c) (ReplaceAll s' old new)
  end.

(** [strings.Join]. *)
Fixpoint Join (elems : list string) (sep : string) : string :=
  match elems with
  | [] => EmptyString
  | [e] => e
  | e :: rest => e +++ sep +++ Join rest sep
  end.

(** The verb [%d] on an [int]. *)
Definition Itoa (n : Z) : string := NilZero.string_of_int (Z.to_int n).

(** ** [strconv.Quote], the verb [%q] on a string *)

Definition byteOf (c : ascii) : Z := Z.of_N (N_of_ascii c).
Definition charOf (b : Z) : ascii := ascii_of_N (Z.to_N b).
Definition str1 (b : Z) : string := String (charOf b) EmptyString.

Definition lowerhex (n : Z) : string :=
  str1 (if n <? 10 then 48 + n else 87 + n).

Definition RuneError : Z := 0xFFFD.

(** [utf8.DecodeRuneInString]: the rune at the head of [s] and its width. *)
Definition DecodeRuneInString (s : string) : Z * nat :=
  match s with
  | EmptyString => (RuneError, 0%nat)
  | String c0 t0 =>
    let s0 := byteOf c0 in
    if s0 <? 0x80 then (s0, 1%nat)
    else if (s0 <? 0xC2) || (0xF4 <? s0) then (RuneError, 1%nat)
    else
      let sz := if s0 <? 0xE0 then 2 else if s0 <? 0xF0 then 3 else 4 in
      let lo := if s0 =? 0xE0 then 0xA0 else if s0 =? 0xF0 then 0x90 else 0x80 in
      let hi := if s0 =? 0xED then 0x9F else if s0 =? 0xF4 then 0x8F else 0xBF in
      if Z.of_nat (String.length s) <? sz then (RuneError, 1%nat)
      else
        match t0 with
        | EmptyString => (RuneError, 1%nat)
        | String c1 t1 =>
          let s1 := byteOf c1 in
          if (s1 <? lo) || (hi <? s1) then (RuneError, 1%nat)
          else if sz <=? 2
          then (Z.lor (Z.shiftl (Z.land s0 0x1F) 6) (Z.land s1 0x3F), 2%nat)
          else
            match t1 with
            | EmptyString => (RuneError, 1%nat)
            | String c2 t2 =>
              let s2 := byteOf c2 in
              if (s2 <? 0x80) || (0xBF <? s2) then (RuneError, 1%nat)
              else if sz <=? 3
              then (Z.lor (Z.shiftl (Z.land s0 0x0F) 12)
                      (Z.lor (Z.shiftl (Z.land s1 0x3F) 6) (Z.land s2 0x3F)), 3%nat)
              else
                match t2 with
                | EmptyString => (RuneError, 1%nat)
                | String c3 _ =>
                  let s3 := byteOf c3 in
                  if (s3 <? 0x80) || (0xBF <? s3) then (RuneError, 1%nat)
                  else (Z.lor (Z.shiftl (Z.land s0 0x07) 18)
                          (Z.lor (Z.shiftl (Z.land s1 0x3F) 12)
                             (Z.lor (Z.shiftl (Z.land s2 0x3F) 6) (Z.land s3 0x3F))), 4%nat)
                end
            end
        end
  end.

(** [utf8.ValidRune]. *)
Definition ValidRune (r : Z) : bool :=
  ((0 <=? r) && (r <? 0xD800)) || ((0xDFFF <? r) && (r <=? 0x10FFFF)).

(** [utf8.AppendRune]. *)
Definition AppendRune (r : Z) : string :=
  let r := if ValidRune r then r else RuneError in
  let cont x := str1 (Z.lor 0x80 (Z.land x 0x3F)) in
  if r <=? 0x7F then str1 r
  else if r <=? 0x7FF then str1 (Z.lor 0xC0 (Z.shiftr r 6)) +++ cont r
  else if r <=? 0xFFFF
  then str1 (Z.lor 0xE0 (Z.shiftr r 12)) +++ cont (Z.shiftr r 6) +++ cont r
  else str1 (Z.lor 0xF0 (Z.shiftr r 18)) +++ cont (Z.shiftr r 12)
         +++ cont (Z.shiftr r 6) +++ cont r.

(** The hexadecimal digits of [r] from bit [4 * n - 4] down to bit 0. *)
Fixpoint hexDigits (n : nat) (r : Z) : string :=
  match n with
  | O => EmptyString
  | S n' => lowerhex (Z.land (Z.shiftr r (4 * Z.of_nat n')) 0xF) +++ hexDigits n' r
  end.

Fixpoint skip (n : nat) (s : string) : string :=
  match n, s with
  | S n', String _ s' => skip n' s'
  | _, _ => s
  end.

Section Client.

(** [strconv.IsPrint] consults the Unicode tables of the Go runtime for
    runes above Latin-1; the tables are a parameter. *)
Variable isPrintWide : Z -> bool.

Definition IsPrint (r : Z) : bool :=
  if r <=? 0xFF then
    if (0x20 <=? r) && (r <=? 0x7E) then true
    else if (0xA1 <=? r) && (r <=? 0xFF) then negb (r =? 0xAD)
    else false
  else isPrintWide r.

(** [appendEscapedRune] quoting with the double quote, not ASCII-only. *)
Definition appendEscapedRune (r : Z) : string :=
  if (r =? 34) || (r =? 92) then "\" +++ str1 r
  else if IsPrint r then AppendRune r
  else if r =? 7 then "\a"
  else if r =? 8 then "\b"
  else if r =? 12 then "\f"
  else if r =? 10 then "\n"
  else if r =? 13 then "\r"
  else if r =? 9 then "\t"
  else if r =? 11 then "\v"
  else if (r <? 32) || (r =? 0x7F) then "\x" +++ hexDigits 2 r
  else if negb (ValidRune r) then "\u" +++ hexDigits 4 RuneError
  else if r <? 0x10000 then "\u" +++ hexDigits 4 r
  else "\U" +++ hexDigits 8 r.

(** The loop of [appendQuotedWith]; [n] bounds the number of runes. *)
Fixpoint quoteRunes (n : nat) (s : string) : string :=
  match n, s with
  | O, _ => EmptyString
  | _, EmptyString => EmptyString
  | S n', String c0 _ =>
    let '(r, width) := DecodeRuneInString s in
    if (Nat.eqb width 1) && (r =? RuneError)
    then "\x" +++ hexDigits 2 (byteOf c0) +++ quoteRunes n' (skip 1 s)
    else appendEscapedRune r +++ quoteRunes n' (skip width s)
  end.

Definition Quote (s : string) : string :=
  String dquote (quoteRunes (String.length s) s +++ String dquote EmptyString).

(** [fmt.Sprintf("%q", a)] for [a []string]: the quoted elements between
    brackets, separated by one space. *)
Definition SprintfQ (a : list string) : string :=
  "[" +++ Join (map Quote a) " " +++ "]".

(** ** Errors *)

(** An [error] is either a leaf ([errors.New], an error of a library) or
    the value built by [fmt.Errorf] with the verb [%w], which keeps the
    formatted message and the wrapped cause. *)
Inductive error : Type :=
| errorString (s : string)
| wrapError (msg : string) (err : error).

Definition Error (e : error) : string :=
  match e with
  | errorString s => s
  | wrapError msg _ => msg
  end.

Definition Unwrap (e : error) : option error :=
  match e with
  | errorString _ => None
  | wrapError _ err => Some err
  end.

(** Declared by the package; no path of [exchangeMessage] returns it. *)
Definition errExchangeMessage : error :=
  errorString "didn't receive expected message".

Definition nilDereference : string :=
  "runtime error: invalid memory address or nil pointer dereference".

(** ** Durations *)

Definition wrap64 (z : Z) : Z := (z + 2 ^ 63) mod 2 ^ 64 - 2 ^ 63.

Definition Second : Z := 1000000000.

(** ** Events *)

Inductive logLevel := LInfo | LWarn | LError.

Inductive logArg :=
| AString (s : string)
| AStrings (a : list string)
| AError (e : error).

Inductive MessageType := TextMessage | BinaryMessage.

Inductive event :=
| EDial (urlStr : string) (handshakeTimeout : Z)
| EBodyReadAll
| EBodyClose
| ELog (lv : logLevel) (format : string) (args : list logArg)
| ESetReadLimit (limit : Z)
| ESetPongHandler
| EWriteMessage (messageType : MessageType) (data : string)
| EPong (now : Z)
| EReadFrame (messageType : MessageType) (data : string)
| EReadErr (err : error)
| ESetReadDeadline (t : Z)
| EPing (deadline : Z)
| EClose
| EGo
| ENewTicker (d : Z)
| ETickerStop
| EErrorChan (err : error)
| EOut (pp : string).

(** ** The environment *)

(** What a call of [ReadMessage] finds on the wire: a pong control frame
    (with the reading of [time.Now] in its handler and the answer of
    [SetReadDeadline] there), a data frame, or a read error. *)
Inductive WireItem :=
| Pong (now : Z) (res : option error)
| Frame (mt : MessageType) (pp : string)
| Fail (err : error).

(** [*websocket.Conn]: the handle with what the environment will answer.
    [writes] are the results of the successive [WriteMessage] calls (none
    left: success); [armNow] and [armErr] are the reading of [time.Now] and
    the answer of [SetReadDeadline] when [subscribe] arms the deadline. *)
Record Conn := mkConn {
  incoming : list WireItem;
  writes : list (option error);
  pongHandler : bool;
  armNow : Z;
  armErr : option error;
  closeErr : option error
}.

(** [*http.Response]: the status code, what [io.ReadAll] reads from the
    body, and the answer of [Body.Close]. *)
Record Response := mkResponse {
  StatusCode : Z;
  Body : string;
  bodyCloseErr : option error
}.

(** What [Dialer.Dial] returns.  A successful dial gives the connection
    together with the response of the upgrade (never nil then); a failed
    one gives a nil connection, the error, and the response when the
    remote answered before the failure (nil otherwise). *)
Inductive DialOutcome :=
| Dialed (c : Conn) (hresp : Response)
| DialFailed (err : error) (hresp : option Response).

Definition dial_conn (d : DialOutcome) : option Conn :=
  match d with Dialed c _ => Some c | DialFailed _ _ => None end.
Definition dial_hresp (d : DialOutcome) : option Response :=
  match d with Dialed _ h => Some h | DialFailed _ h => h end.
Definition dial_err (d : DialOutcome) : option error :=
  match d with Dialed _ _ => None | DialFailed e _ => Some e end.

(** ** The client *)

(** [outputChan] holds the values sent on the channel so far. *)
Record AlpacaWebSocket := mkAlpacaWebSocket {
  maxMessageSize : Z;
  pingPeriod : Z;
  server : string;
  apiKey : string;
  apiSecret : string;
  subscriptions : list string;
  conn : option Conn;
  outputChan : list string
}.

(** [config.Config], with the canonical list that
    [cfg.Subscription.AsCanonical()] returns. *)
Record Config := mkConfig {
  WSServer : string;
  APIKey : string;
  APISecret : string;
  Canonical : list string
}.

Definition NewAlpacaWebSocket (cfg : Config) (oChan : list string) : AlpacaWebSocket :=
  let defaultMaxMessageSizeInBytes := 2048000 in
  {| maxMessageSize := defaultMaxMessageSizeInBytes;
     pingPeriod := 10 * Second;
     server := WSServer cfg;
     apiKey := APIKey cfg;
     apiSecret := APISecret cfg;
     subscriptions := Canonical cfg;
     conn := None;
     outputChan := oChan |}.

Definition set_conn (p : AlpacaWebSocket) (c : option Conn) : AlpacaWebSocket :=
  {| maxMessageSize := maxMessageSize p; pingPeriod := pingPeriod p;
     server := server p; apiKey := apiKey p; apiSecret := apiSecret p;
     subscriptions := subscriptions p; conn := c; outputChan := outputChan p |}.

Definition send_output (p : AlpacaWebSocket) (msg : string) : AlpacaWebSocket :=
  {| maxMessageSize := maxMessageSize p; pingPeriod := pingPeriod p;
     server := server p; apiKey := apiKey p; apiSecret := apiSecret p;
     subscriptions := subscriptions p; conn := conn p;
     outputChan := outputChan p ++ [msg] |}.

Definition set_incoming (c : Conn) (l : list WireItem) : Conn :=
  {| incoming := l; writes := writes c; pongHandler := pongHandler c;
     armNow := armNow c; armErr := armErr c; closeErr := closeErr c |}.

Definition set_writes (c : Conn) (w : list (option error)) : Conn :=
  {| incoming := incoming c; writes := w; pongHandler := pongHandler c;
     armNow := armNow c; armErr := armErr c; closeErr := closeErr c |}.

Definition set_pongHandler (c : Conn) (h : bool) : Conn :=
  {| incoming := incoming c; writes := writes c; pongHandler := h;
     armNow := armNow c; armErr := armErr c; closeErr := closeErr c |}.

(** ** Calls: a result or a panic or no return, a new state, the events *)

Inductive outcome (A : Type) : Type :=
| Returns (a : A)
| Panics (msg : string)
| Blocks.
#[global] Arguments Returns {A} a.
#[global] Arguments Panics {A} msg.
#[global] Arguments Blocks {A}.

Definition M (S A : Type) : Type := S -> outcome A * S * list event.

Definition ret {S A} (a : A) : M S A := fun s => (Returns a, s, []).

Definition bind {S A B} (m : M S A) (k : A -> M S B) : M S B :=
  fun s =>
    let '(r, s1, ev1) := m s in
    match r with
    | Returns a => let '(r2, s2, ev2) := k a s1 in (r2, s2, ev1 ++ ev2)
    | Panics msg => (Panics msg, s1, ev1)
    | Blocks => (Blocks, s1, ev1)
    end.

Notation "x <- m ;; k" := (bind m (fun x => k))
  (at level 61, m at next level, right associativity).
Notation "m ;;; k" := (bind m (fun _ => k))
  (at level 61, right associativity).

Definition emit {S} (ev : list event) : M S unit := fun s => (Returns tt, s, ev).
Definition get {S} : M S S := fun s => (Returns s, s, []).
Definition put {S} (s : S) : M S unit := fun _ => (Returns tt, s, []).
Definition panic {S A} (msg : string) : M S A := fun s => (Panics msg, s, []).

(** [defer cleanup body]: the deferred call runs when [body] returns or
    panics, not when it never returns. *)
Definition defer {S A} (cleanup : M S unit) (body : M S A) : M S A :=
  fun s =>
    let '(r, s1, ev1) := body s in
    match r with
    | Blocks => (Blocks, s1, ev1)
    | _ =>
      let '(c, s2, ev2) := cleanup s1 in
      (match c with
       | Returns _ => r
       | Panics msg => Panics msg
       | Blocks => Blocks
       end, s2, ev1 ++ ev2)
    end.

(** A method of [p.conn]; a nil [p.conn] panics. *)
Definition withConn {A} (f : Conn -> A * Conn * list event) : M AlpacaWebSocket A :=
  fun p =>
    match conn p with
    | None => (Panics nilDereference, p, [])
    | Some c => let '(a, c', ev) := f c in (Returns a, set_conn p (Some c'), ev)
    end.

Definition SetReadLimit (limit : Z) : M AlpacaWebSocket unit :=
  withConn (fun c => (tt, c, [ESetReadLimit limit])).

Definition SetPongHandler : M AlpacaWebSocket unit :=
  withConn (fun c => (tt, set_pongHandler c true, [ESetPongHandler])).

Definition SetReadDeadline (t : Z) (res : option error) : M AlpacaWebSocket (option error) :=
  withConn (fun c => (res, c, [ESetReadDeadline t])).

Definition WriteMessage (messageType : MessageType) (data : string)
  : M AlpacaWebSocket (option error) :=
  withConn (fun c => (hd None (writes c), set_writes c (tl (writes c)),
                      [EWriteMessage messageType data])).

Definition Close : M AlpacaWebSocket (option error) :=
  withConn (fun c => (closeErr c, c, [EClose])).

(** ** [setReadDeadline] *)

(** [(p.pingPeriod * 6) / 5] on [time.Duration]. *)
Definition deadlineOffset (p : AlpacaWebSocket) : Z :=
  Z.quot (wrap64 (pingPeriod p * 6)) 5.

(** [now] is the reading of [time.Now], [res] the answer of the
    connection. *)
Definition setReadDeadline (now : Z) (res : option error) : M AlpacaWebSocket (option error) :=
  fun p => SetReadDeadline (now + deadlineOffset p) res p.

(** ** [ReadMessage] *)

Inductive readResult :=
| Message (mt : MessageType) (pp : string)
| ReadErr (err : error).

(** The pong handler of the connection: the closure installed by [listen]
    calls [p.setReadDeadline]; the default handler does nothing. *)
Definition handlePong (p : AlpacaWebSocket) (installed : bool) (now : Z) (res : option error)
  : option error * list event :=
  if installed then (res, [ESetReadDeadline (now + deadlineOffset p)])
  else (None, []).

(** Control frames are handled inside the read; an error of the handler
    fails the read.  With nothing left on the wire the read never returns. *)
Fixpoint nextMessage (h : Z -> option error -> option error * list event) (l : list WireItem)
  : outcome readResult * list WireItem * list event :=
  match l with
  | [] => (Blocks, [], [])
  | Pong now res :: l' =>
    let '(herr, hev) := h now res in
    match herr with
    | Some err => (Returns (ReadErr err), l', EPong now :: hev)
    | None => let '(r, l'', ev) := nextMessage h l' in (r, l'', EPong now :: hev ++ ev)
    end
  | Frame mt pp :: l' => (Returns (Message mt pp), l', [EReadFrame mt pp])
  | Fail err :: l' => (Returns (ReadErr err), l', [EReadErr err])
  end.

Definition ReadMessage : M AlpacaWebSocket readResult :=
  fun p =>
    match conn p with
    | None => (Panics nilDereference, p, [])
    | Some c =>
      let '(r, l, ev) := nextMessage (handlePong p (pongHandler c)) (incoming c) in
      (r, set_conn p (Some (set_incoming c l)), ev)
    end.

(** ** [connect] *)

(** The deferred call of [connect]: close the body, log a failure. *)
Definition closeBody (hresp : Response) : M AlpacaWebSocket unit :=
  emit [EBodyClose] ;;;
  match bodyCloseErr hresp with
  | Some err2 =>
    emit [ELog LError ("failed to close websocket response body:" +++ Error err2) []]
  | None => ret tt
  end.

(** [fmt.Errorf] with the two formats of [connect]. *)
Definition errConnectionResponse (err : error) (status : Z) (body : string) : error :=
  wrapError ("[alpaca] connection failure, err: " +++ Error err
             +++ ", status_code: " +++ Itoa status +++ ", body: " +++ body) err.

Definition errConnection (err : error) : error :=
  wrapError ("[alpaca] connection failure, err: " +++ Error err) err.

(** [d] is what [dialer.Dial(p.server, nil)] returns.  The argument
    [hresp.Body] of the deferred call is evaluated by the [defer]
    statement: a nil [hresp] panics there. *)
Definition connect (d : DialOutcome) : M AlpacaWebSocket (option error) :=
  p <- get ;;
  emit [EDial (server p) (2 * Second)] ;;;
  put (set_conn p (dial_conn d)) ;;;
  let hresp := dial_hresp d in
  let err := dial_err d in
  match hresp with
  | None => panic nilDereference
  | Some withBody =>
    defer (closeBody withBody)
      match err with
      | Some err =>
        match hresp with
        | Some h =>
          emit [EBodyReadAll] ;;;
          ret (Some (errConnectionResponse err (StatusCode h) (Body h)))
        | None => ret (Some (errConnection err))
        end
      | None => ret None
      end
  end.

(** ** [exchangeMessage] *)

Definition logResponse (response expect : string) : event :=
  ELog LInfo "[javierlopeza] response: %s, expect: %s" [AString response; AString expect].

(** The [for] loop of [exchangeMessage] over what is on the wire, with the
    body of [ReadMessage] unfolded in it (see [awaitResponse_ReadMessage]). *)
Fixpoint awaitResponse (h : Z -> option error -> option error * list event)
    (expect : string) (l : list WireItem)
  : outcome (string * option error) * list WireItem * list event :=
  match l with
  | [] => (Blocks, [], [])
  | Pong now res :: l' =>
    let '(herr, hev) := h now res in
    match herr with
    | Some err => (Returns (EmptyString, Some err), l', EPong now :: hev)
    | None =>
      let '(r, l'', ev) := awaitResponse h expect l' in (r, l'', EPong now :: hev ++ ev)
    end
  | Frame mt pp :: l' =>
    if Contains pp expect then (Returns (pp, None), l', [EReadFrame mt pp])
    else
      let '(r, l'', ev) := awaitResponse h expect l' in
      (r, l'', EReadFrame mt pp :: logResponse pp expect :: ev)
  | Fail err :: l' => (Returns (EmptyString, Some err), l', [EReadErr err])
  end.

Definition exchangeMessage (send expect : string) : M AlpacaWebSocket (string * option error) :=
  err <- WriteMessage TextMessage send ;;
  match err with
  | Some err => ret (EmptyString, Some err)
  | None =>
    fun p =>
      match conn p with
      | None => (Panics nilDereference, p, [])
      | Some c =>
        let '(r, l, ev) := awaitResponse (handlePong p (pongHandler c)) expect (incoming c) in
        (r, set_conn p (Some (set_incoming c l)), ev)
      end
  end.

(** ** [subscribe] *)

Definition authMsg (p : AlpacaWebSocket) : string :=
  lit "{'action': 'auth', 'key': '" +++ apiKey p
  +++ lit "', 'secret': '" +++ apiSecret p +++ lit "'}".

Definition subMsg (p : AlpacaWebSocket) : string :=
  lit "{'action': 'listen', 'data': {'streams': "
  +++ ReplaceAll (SprintfQ (subscriptions p)) " " "," +++ "}}".

Definition logAuthMsg (p : AlpacaWebSocket) : event :=
  ELog LInfo "[javierlopeza] %s" [AString (authMsg p)].

Definition logAuthFailure (resp : string) (err : error) : event :=
  ELog LError "[alpaca] unable to authenticate {%s:%v,%s:%v}"
    [AString "response"; AString resp; AString "error"; AError err].

Definition logSubFailure (p : AlpacaWebSocket) (resp : string) (err : error) : event :=
  ELog LError "[alpaca] subscription failure {%s:%v,%s:%v,%s:%v}"
    [AString "streams"; AStrings (subscriptions p);
     AString "response"; AString resp; AString "error"; AError err].

Definition logSubscribed (p : AlpacaWebSocket) : event :=
  ELog LInfo "[alpaca] subscribed {%s:%v}" [AString "streams"; AStrings (subscriptions p)].

Definition subscribe : M AlpacaWebSocket (option error) :=
  p <- get ;;
  emit [logAuthMsg p] ;;;
  r <- exchangeMessage (authMsg p) (lit "'authenticated'") ;;
  let '(resp, err) := r in
  match err with
  | Some err =>
    emit [logAuthFailure resp err] ;;;
    ret (Some err)
  | None =>
    emit [ELog LInfo "[alpaca] authenticated successfully" []] ;;;
    r <- exchangeMessage (subMsg p) "streams" ;;
    let '(resp, err) := r in
    match err with
    | Some err =>
      emit [logSubFailure p resp err] ;;;
      ret (Some err)
    | None =>
      emit [logSubscribed p] ;;;
      p' <- get ;;
      match conn p' with
      | None => panic nilDereference
      | Some c => setReadDeadline (armNow c) (armErr c)
      end
    end
  end.

(** ** The two goroutines *)

(** Where the goroutine of [receiveMessages] stands: not started, about to
    call [ReadMessage], waiting in [out <- pp], waiting in
    [errorChan <- err], returned, or stopped by a panic. *)
Inductive pumpState :=
| PumpNotStarted
| PumpReading
| PumpSendingOut (pp : string)
| PumpSendingErr (err : error)
| PumpExited
| PumpPanicked.

(** What happens next, chosen by the scheduler and the environment: the
    goroutine of [receiveMessages] runs to its next channel operation;
    the [select] of [listen] takes [errorChan], the ticker (with the
    reading of [time.Now] and the answer of [WriteControl]) or [out]; the
    send [p.outputChan <- msg] completes. *)
Inductive choice :=
| Pump
| RecvErr
| Tick (now : Z) (res : option error)
| RecvOut
| Sink.

(** [sending] is the message [listen] holds while it waits in
    [p.outputChan <- msg]; [errorChan] is the buffer of the channel. *)
Record State := mkState {
  this : AlpacaWebSocket;
  pump : pumpState;
  errorChan : list error;
  sending : option string;
  sched : list choice
}.

(** [make(chan error, 1)]. *)
Definition errorChanCap : nat := 1.

Definition set_this (s : State) (p : AlpacaWebSocket) : State :=
  {| this := p; pump := pump s; errorChan := errorChan s;
     sending := sending s; sched := sched s |}.
Definition set_pump (s : State) (q : pumpState) : State :=
  {| this := this s; pump := q; errorChan := errorChan s;
     sending := sending s; sched := sched s |}.
Definition set_errorChan (s : State) (b : list error) : State :=
  {| this := this s; pump := pump s; errorChan := b;
     sending := sending s; sched := sched s |}.
Definition set_sending (s : State) (m : option string) : State :=
  {| this := this s; pump := pump s; errorChan := errorChan s;
     sending := m; sched := sched s |}.
Definition set_sched (s : State) (cs : list choice) : State :=
  {| this := this s; pump := pump s; errorChan := errorChan s;
     sending := sending s; sched := cs |}.

(** A method of [p] run by [listen]. *)
Definition onThis {A} (m : M AlpacaWebSocket A) : M State A :=
  fun s => let '(r, p, ev) := m (this s) in (r, set_this s p, ev).

(** ** [receiveMessages] *)

(** [errorChan <- err]: the send completes when the buffer has room. *)
Definition sendErr (err : error) (s : State) : State * list event :=
  if (List.length (errorChan s) <? errorChanCap)%nat
  then (set_pump (set_errorChan s (errorChan s ++ [err])) PumpExited, [EErrorChan err])
  else (set_pump s (PumpSendingErr err), []).

(** One turn of the goroutine: an iteration of its loop up to the next
    channel operation, or the completion of a pending [errorChan <- err].
    [out <- pp] completes in [selectLoop], when [listen] receives. *)
Definition receiveMessages (s : State) : State * list event :=
  match pump s with
  | PumpReading =>
    let '(r, p, ev) := ReadMessage (this s) in
    let s := set_this s p in
    match r with
    | Blocks => (s, ev)
    | Panics _ => (set_pump s PumpPanicked, ev)
    | Returns (ReadErr err) =>
      let '(s', ev') := sendErr err s in
      (s', ev ++ ELog LError "[alpaca] error during reading {%s:%s}"
                   [AString "error"; AError err] :: ev')
    | Returns (Message BinaryMessage _) =>
      (s, ev ++ [ELog LWarn "[alpaca] received binary message from server" []])
    | Returns (Message TextMessage pp) => (set_pump s (PumpSendingOut pp), ev)
    end
  | PumpSendingErr err => sendErr err s
  | _ => (s, [])
  end.

(** ** [listen] *)

(** [p.conn.WriteControl(websocket.PingMessage, []byte{}, deadline)]. *)
Definition WriteControlPing (deadline : Z) (res : option error) : M AlpacaWebSocket (option error) :=
  withConn (fun c => (res, c, [EPing deadline])).

(** The [for { select { ... } }] of [listen] under the choices [cs]; it
    leaves the choices it did not use in [sched].  A choice that is not
    enabled is passed over. *)
Fixpoint selectLoop (cs : list choice) (s : State) : outcome error * State * list event :=
  match cs with
  | [] => (Blocks, set_sched s [], [])
  | c :: rest =>
    match c, sending s with
    | Pump, _ =>
      let '(s', ev) := receiveMessages s in
      let '(r, s'', ev') := selectLoop rest s' in (r, s'', ev ++ ev')
    | Sink, Some msg =>
      selectLoop rest (set_sending (set_this s (send_output (this s) msg)) None)
    | RecvErr, None =>
      match errorChan s with
      | err :: buf => (Returns err, set_sched (set_errorChan s buf) rest, [])
      | [] => selectLoop rest s
      end
    | Tick now res, None =>
      let '(r, p, ev) := WriteControlPing (now + Second) res (this s) in
      let s' := set_this s p in
      match r with
      | Returns (Some err) =>
        (Returns err, set_sched s' rest,
         ev ++ [ELog LError "[alpaca] stream write ping error %s" [AError err]])
      | Returns None =>
        let '(r', s'', ev') := selectLoop rest s' in (r', s'', ev ++ ev')
      | Panics msg => (Panics msg, set_sched s' rest, ev)
      | Blocks => (Blocks, set_sched s' rest, ev)
      end
    | RecvOut, None =>
      match pump s with
      | PumpSendingOut pp =>
        let '(r, s', ev) :=
          selectLoop rest (set_sending (set_pump s PumpReading) (Some pp)) in
        (r, s', EOut pp :: ev)
      | _ => selectLoop rest s
      end
    | _, _ => selectLoop rest s
    end
  end.

(** The deferred call of [listen] on the connection. *)
Definition closeConn : M State unit :=
  err <- onThis Close ;;
  match err with
  | Some err =>
    emit [ELog LError "failed to close websocket connection" [AString (Error err)]]
  | None => ret tt
  end.

(** [time.NewTicker] panics on a non-positive period. *)
Definition NewTicker (d : Z) : M State unit :=
  if d <=? 0 then panic "non-positive interval for NewTicker"
  else emit [ENewTicker d].

(** [out, errorChan := make(chan []byte), make(chan error, 1)]. *)
Definition makeChans : M State unit :=
  fun s => (Returns tt, set_errorChan s [], []).

Definition go_receiveMessages : M State unit :=
  fun s => (Returns tt, set_pump s PumpReading, [EGo]).

(** [d] is the result of the dial; the schedule is in the state. *)
Definition listen (d : DialOutcome) : M State (option error) :=
  err <- onThis (connect d) ;;
  match err with
  | Some err =>
    s <- get ;;
    emit [ELog LError "[alpaca] error connecting to server {%s:%v,%s:%v,%s:%s}"
            [AString "server"; AString (server (this s));
             AString "subscription"; AStrings (subscriptions (this s));
             AString "error"; AError err]] ;;;
    ret (Some err)
  | None =>
    defer closeConn
      (s <- get ;;
       onThis (SetReadLimit (maxMessageSize (this s))) ;;;
       onThis SetPongHandler ;;;
       err <- onThis subscribe ;;
       match err with
       | Some err => ret (Some err)
       | None =>
         makeChans ;;;
         go_receiveMessages ;;;
         NewTicker (pingPeriod (this s)) ;;;
         defer (emit [ETickerStop])
           (err <- (fun s => selectLoop (sched s) s) ;;
            ret (Some err))
       end)
  end.

(** After [listen] has returned the goroutine of [receiveMessages] still
    runs: its turns among the choices that are left. *)
Fixpoint afterReturn (cs : list choice) (s : State) : State * list event :=
  match cs with
  | [] => (s, [])
  | Pump :: rest =>
    let '(s', ev) := receiveMessages s in
    let '(s'', ev') := afterReturn rest s' in (s'', ev ++ ev')
  | _ :: rest => afterReturn rest s
  end.

(** A whole run: [listen], then the goroutine alone. *)
Definition run (d : DialOutcome) (s : State) : outcome (option error) * State * list event :=
  let '(r, s1, ev1) := listen d s in
  let '(s2, ev2) := afterReturn (sched s1) s1 in
  (r, set_sched s2 [], ev1 ++ ev2).

(** The state in which [listen] is called on [p]. *)
Definition start (p : AlpacaWebSocket) (cs : list choice) : State :=
  {| this := p; pump := PumpNotStarted; errorChan := []; sending := None; sched := cs |}.

(** ** Reading the events *)

Definition isClose (e : event) : bool :=
  match e with EClose => true | _ => false end.

Definition closes (ev : list event) : nat := List.length (filter isClose ev).

Definition isBodyClose (e : event) : bool :=
  match e with EBodyClose => true | _ => false end.

Definition deadlineOf (e : event) : list Z :=
  match e with ESetReadDeadline t => [t] | _ => [] end.

(** The deadlines set on the connection, in order. *)
Definition deadlines (ev : list event) : list Z := flat_map deadlineOf ev.

Definition subscribedFormat : string := "[alpaca] subscribed {%s:%v}".

(** The deadline that an event calls for: a pong arms [now + offset], the
    completion of the handshake arms [armed + offset]. *)
Definition armingOf (offset armed : Z) (e : event) : list Z :=
  match e with
  | EPong now => [now + offset]
  | ELog LInfo format _ =>
    if String.eqb format subscribedFormat then [armed + offset] else []
  | _ => []
  end.

Definition armings (offset armed : Z) (ev : list event) : list Z :=
  flat_map (armingOf offset armed) ev.

(** What the goroutine of [receiveMessages] does on the connection and on
    its channels. *)
Definition pumpEvent (e : event) : bool :=
  match e with
  | EPong _ | EReadFrame _ _ | EReadErr _ | EErrorChan _ | EOut _ => true
  | _ => false
  end.

Definition isErrorChan (e : event) : bool :=
  match e with EErrorChan _ => true | _ => false end.

Definition errorSends (ev : list event) : nat := List.length (filter isErrorChan ev).

(** The events after the goroutine was started. *)
Fixpoint streamed (ev : list event) : list event :=
  match ev with
  | [] => []
  | EGo :: rest => rest
  | _ :: rest => streamed rest
  end.

Definition textPayloadOf (e : event) : list string :=
  match e with EReadFrame TextMessage pp => [pp] | _ => [] end.

(** The payloads of the text frames read, in order. *)
Definition textPayloads (ev : list event) : list string := flat_map textPayloadOf ev.

(** The payloads read and not yet sent on [p.outputChan]: the one [listen]
    holds, then the one the goroutine holds. *)
Definition inFlight (s : State) : list string :=
  match sending s with Some msg => [msg] | None => [] end
  ++ match pump s with PumpSendingOut pp => [pp] | _ => [] end.



(** The error is one the transport gave: the result of a write, a failed
    read, the answer of [SetReadDeadline] to the handler or to
    [subscribe]. *)
Definition fromTransport (c : Conn) (err : error) : Prop :=
  In (Some err) (writes c)
  \/ In (Fail err) (incoming c)
  \/ (exists now, In (Pong now (Some err)) (incoming c))
  \/ armErr c = Some err.



(** ** Reading the runs *)

(** What the deferred call of [connect] leaves in the events. *)
Definition bodyCloseEvents (hresp : Response) : list event :=
  EBodyClose ::
  match bodyCloseErr hresp with
  | Some err2 =>
    [ELog LError ("failed to close websocket response body:" +++ Error err2) []]
  | None => []
  end.

(** The events of a read, and the events of the handshake. *)
Definition readEvent (e : event) : bool :=
  match e with
  | EPong _ | ESetReadDeadline _ | EReadFrame _ _ | EReadErr _ => true
  | _ => false
  end.

Definition handshakeEvent (e : event) : bool :=
  match e with
  | EDial _ _ | EBodyReadAll | EBodyClose | ESetReadLimit _ | ESetPongHandler
  | EWriteMessage _ _ | ELog _ _ _ => true
  | _ => readEvent e
  end.

(** The events of the two goroutines while frames are streamed. *)
Definition streamEvent (e : event) : bool :=
  match e with
  | ELog _ _ _ | EErrorChan _ | EOut _ | EPing _ => true
  | _ => readEvent e
  end.

Definition fixed (c : Conn) : bool * Z * option error * option error :=
  (pongHandler c, armNow c, armErr c, closeErr c).

Definition sameLink (p p' : AlpacaWebSocket) : Prop :=
  pingPeriod p' = pingPeriod p
  /\ option_map fixed (conn p') = option_map fixed (conn p).

(** Events built from known pieces. *)
Ltac solve_forallb :=
  repeat (cbn;
          repeat match goal with
                 | H : forallb _ _ = true |- _ => rewrite H
                 end;
          rewrite ?forallb_app);
  reflexivity.

Ltac solve_flat_map :=
  unfold deadlines, armings, textPayloads in *;
  repeat (cbn; rewrite ?flat_map_app);
  repeat match goal with
         | H : flat_map _ _ = _ |- _ => rewrite H
         end;
  reflexivity.

Definition calm (e : event) : bool := negb (pumpEvent e).

(** After a send on [errorChan] the goroutine of [receiveMessages] does
    nothing more. *)
Fixpoint quietAfterErr (ev : list event) : bool :=
  match ev with
  | [] => true
  | e :: rest => if isErrorChan e then forallb calm rest else quietAfterErr rest
  end.

Definition idle (q : pumpState) : bool :=
  match q with
  | PumpNotStarted | PumpExited | PumpPanicked => true
  | _ => false
  end.

(** While the goroutine runs the buffer of [errorChan] is empty, and the
    goroutine never waits in [errorChan <- err]. *)
Definition roomForError (s : State) : Prop :=
  match pump s with
  | PumpReading | PumpSendingOut _ => errorChan s = []
  | PumpSendingErr _ => False
  | _ => True
  end.

Definition handlerOn (p : AlpacaWebSocket) : Prop :=
  forall c, conn p = Some c -> pongHandler c = true.

(** What a stretch of the run from [s] to [s'] with the events [ev]
    keeps. *)
Record stretch (s : State) (ev : list event) (s' : State) : Prop := {
  st_events : forallb streamEvent ev = true;
  st_link : sameLink (this s) (this s');
  st_deadlines :
    handlerOn (this s) ->
    forall armed, deadlines ev = armings (deadlineOffset (this s)) armed ev;
  st_flow :
    outputChan (this s') ++ inFlight s'
    = outputChan (this s) ++ inFlight s ++ textPayloads ev;
  st_room : roomForError s -> roomForError s';
  st_quiet : roomForError s -> quietAfterErr ev = true;
  st_sent : roomForError s -> errorSends ev = 0%nat \/ idle (pump s') = true;
  st_idle : idle (pump s) = true -> forallb calm ev = true /\ idle (pump s') = true
}.

(** What the deferred call of [listen] leaves in the events. *)
Definition closeEvents (c : Conn) : list event :=
  EClose ::
  match closeErr c with
  | Some err => [ELog LError "failed to close websocket connection" [AString (Error err)]]
  | None => []
  end.

Ltac norm_events :=
  repeat first [rewrite <- app_assoc | rewrite app_nil_r | rewrite <- app_comm_cons];
  cbn [app]; reflexivity.

(** The events of [listen] up to the handshake, after a successful dial. *)
Definition preamble (p : AlpacaWebSocket) (hresp : Response) : list event :=
  EDial (server p) (2 * Second) :: bodyCloseEvents hresp
  ++ [ESetReadLimit (maxMessageSize p); ESetPongHandler].

(** Counting through event lists built from known pieces. *)
Ltac count_events :=
  unfold closes, errorSends, deadlines, armings, textPayloads in *;
  repeat (cbn; rewrite ?filter_app, ?length_app, ?flat_map_app);
  repeat match goal with
         | H : List.length (filter _ _) = _ |- _ => rewrite H
         | H : flat_map _ _ = _ |- _ => rewrite H
         end;
  cbn; rewrite ?app_nil_r; try reflexivity; try lia.

(** ** Sample inputs *)

(** A table of wide printable runes for the sample runs. *)
Definition noWide : Z -> bool := fun _ => false.

Definition sampleClient : AlpacaWebSocket :=
  NewAlpacaWebSocket (mkConfig "wss://example" "KEY" "SECRET" ["Q.VOO"]) [].

Definition spacedClient : AlpacaWebSocket :=
  NewAlpacaWebSocket (mkConfig "wss://example" "KEY" "SECRET" ["T.BRK B"]) [].

Definition sampleConn (wire : list WireItem) : Conn :=
  {| incoming := wire; writes := []; pongHandler := false;
     armNow := 100; armErr := None; closeErr := None |}.

Definition upgraded : Response :=
  {| StatusCode := 101; Body := EmptyString; bodyCloseErr := None |}.

Definition errBadHandshake : error := errorString "websocket: bad handshake".
Definition errClosed : error := errorString "websocket: close 1006 (abnormal closure)".
Definition errBrokenPipe : error := errorString "write: broken pipe".

Definition accepted : string :=
  lit "{'stream':'authorization','data':{'status':'authenticated'}}".
Definition listening : string :=
  lit "{'stream':'listening','data':{'streams':['Q.VOO']}}".
Definition rejected : string := lit "{'status':'error'}".


Definition streamWire : list WireItem :=
  [Frame TextMessage accepted; Pong 7 None; Frame TextMessage listening;
   Frame TextMessage "a"; Frame BinaryMessage "b"; Pong 50 None;
   Frame TextMessage "c"; Fail errClosed].

Definition streamSchedule : list choice :=
  [Pump; RecvOut; Sink; Pump; Pump; Tick 60 None; RecvOut; Pump; RecvErr; Sink; RecvErr;
   Pump].

Definition pendingWire : list WireItem :=
  [Frame TextMessage accepted; Frame TextMessage listening; Frame TextMessage "a"].

(** ** Reading more of the runs *)

Definition isGo (e : event) : bool :=
  match e with EGo => true | _ => false end.

Definition isNewTicker (e : event) : bool :=
  match e with ENewTicker _ => true | _ => false end.

Definition isTickerStop (e : event) : bool :=
  match e with ETickerStop => true | _ => false end.

Definition isBodyReadAll (e : event) : bool :=
  match e with EBodyReadAll => true | _ => false end.

(** How many events of a kind. *)
Definition count (f : event -> bool) (ev : list event) : nat :=
  List.length (filter f ev).

Definition writeOf (e : event) : list string :=
  match e with EWriteMessage _ data => [data] | _ => [] end.

(** The messages written to the connection, in order. *)
Definition writesOf (ev : list event) : list string := flat_map writeOf ev.

(** An error that the wire holds: a failed read, or the answer of
    [SetReadDeadline] to the handler of a pong. *)
Definition wireErr (l : list WireItem) (err : error) : Prop :=
  In (Fail err) l \/ exists now, In (Pong now (Some err)) l.

(** A byte that [%q] leaves as it is and that is not the separator:
    printable ASCII other than the space, the double quote and the
    backslash. *)
Definition plainByte (c : ascii) : bool :=
  let b := byteOf c in
  (0x21 <=? b) && (b <=? 0x7E) && negb (b =? 34) && negb (b =? 92).

Definition plainTopic (t : string) : bool :=
  forallb plainByte (list_ascii_of_string t).

(** [t] between double quotes. *)
Definition inQuotes (t : string) : string :=
  String dquote (t +++ String dquote EmptyString).

(** The text between the key and the secret in the authentication
    request. *)
Definition secretSeparator : string := lit "', 'secret': '".

(** While frames are streamed on the wire [W] that [listen] was given:
    the connection holds a suffix of [W], and the errors the goroutine
    has deposited or is about to deposit were read from [W]. *)
Definition known (W : list WireItem) (s : State) : Prop :=
  (exists c pre, conn (this s) = Some c /\ W = pre ++ incoming c)
  /\ Forall (wireErr W) (errorChan s)
  /\ (forall e, pump s = PumpSendingErr e -> wireErr W e).




(** ** The address of a remote instance ([package cli]) *)

(** [strings.Split s sep] for a one-byte [sep]: the pieces of [s] between
    the occurrences of [sep]. *)
Fixpoint Split (s : string) (sep : ascii) : list string :=
  match s with
  | EmptyString => [EmptyString]
  | String c s' =>
    if Ascii.eqb c sep then EmptyString :: Split s' sep
    else match Split s' sep with
         | piece :: rest => String c piece :: rest
         | [] => [String c EmptyString]
         end
  end.

(** [strings.Count s sep] for a one-byte [sep]. *)
Fixpoint Count (s : string) (sep : ascii) : nat :=
  match s with
  | EmptyString => 0%nat
  | String c s' => ((if Ascii.eqb c sep then 1 else 0) + Count s' sep)%nat
  end.

(** The types [mode] and [target] of the package; the fields of [Client]
    keep their names. *)
Inductive modeT := local | remote.

Inductive targetT := terminal | file.

(** [*client.Client] of [frontend/client], known here by the address it
    was made for. *)
Inductive rpcClient := rpcClientAt (baseURL : string).

Record Client := mkClient {
  timing : bool;
  target : targetT;
  mode : modeT;
  url : string;
  rc : option rpcClient;
  dir : string;
  outputDir : string
}.

Definition newline : string := String (ascii_of_nat 10) EmptyString.

(** The client and the error that [NewRemoteClient] returns. *)
Definition NewRemoteClient (address : string) : option Client * option error :=
  let splits := Split address ":" in
  if negb (List.length splits =? 2)%nat then
    let msg := lit "incorrect URL, need 'hostname:port', have: " +++ address +++ newline in
    (None, Some (errorString msg))
  else
    (Some {| timing := false; target := terminal; mode := remote;
             url := "http://" +++ address +++ "/"; rc := None;
             dir := EmptyString; outputDir := EmptyString |},
     None).

(** ** More sample inputs *)

(** Two clients whose keys and secrets differ and whose authentication
    requests are the same. *)
Definition splicedKeyClient : AlpacaWebSocket :=
  NewAlpacaWebSocket
    (mkConfig "wss://example" ("KEY" +++ secretSeparator +++ "X") "SECRET" ["Q.VOO"]) [].

Definition splicedSecretClient : AlpacaWebSocket :=
  NewAlpacaWebSocket
    (mkConfig "wss://example" "KEY" ("X" +++ secretSeparator +++ "SECRET") ["Q.VOO"]) [].

(** A client with a ping period of [2 ^ 61] nanoseconds. *)
Definition longPeriodClient : AlpacaWebSocket :=
  {| maxMessageSize := 2048000; pingPeriod := 2 ^ 61; server := "wss://example";
     apiKey := "KEY"; apiSecret := "SECRET"; subscriptions := ["Q.VOO"];
     conn := None; outputChan := [] |}.


(** * Properties *)

(** ** Strings *)

Lemma append_assoc (a b c : string) : (a +++ b) +++ c = a +++ b +++ c.
Proof. induction a as [|x a IH]; simpl; [reflexivity | now rewrite IH]. Qed.

Lemma length_append (a b : string) :
  String.length (a +++ b) = (String.length a + String.length b)%nat.
Proof. induction a as [|x a IH]; simpl; [reflexivity | now rewrite IH]. Qed.

Lemma append_cancel_l (a b c : string) : a +++ b = a +++ c -> b = c.
Proof.
  induction a as [|x a IH]; simpl; intros H; [exact H | injection H as H; auto].
Qed.

Lemma append_cancel_r (a b t : string) : a +++ t = b +++ t -> a = b.
Proof.
  revert b; induction a as [|x a IH]; intros [|y b] H; simpl in H.
  - reflexivity.
  - apply (f_equal String.length) in H; simpl in H; rewrite length_append in H; lia.
  - apply (f_equal String.length) in H; simpl in H; rewrite length_append in H; lia.
  - injection H as -> H; f_equal; auto.
Qed.

Lemma prefix_append (a b : string) : String.prefix a (a +++ b) = true.
Proof.
  induction a as [|x a IH]; simpl; [now destruct b |].
  destruct (ascii_dec x x); [exact IH | congruence].
Qed.

Lemma Contains_prefix (s t : string) : String.prefix t s = true -> Contains s t = true.
Proof. intros H; destruct s; unfold Contains; fold Contains; now rewrite H. Qed.

Lemma Contains_here (a b : string) : Contains (a +++ b) a = true.
Proof. apply Contains_prefix, prefix_append. Qed.

Lemma Contains_append_l (x s t : string) :
  Contains s t = true -> Contains (x +++ s) t = true.
Proof.
  induction x as [|c x IH]; intros H; [exact H |].
  change (String c x +++ s) with (String c (x +++ s)).
  unfold Contains; fold Contains.
  destruct (String.prefix t (String c (x +++ s))); auto.
Qed.

Lemma Contains_middle (x k y : string) : Contains (x +++ k +++ y) k = true.
Proof. apply Contains_append_l, Contains_here. Qed.

(** *** Quoting *)

Lemma DecodeRuneInString_width (c : ascii) (s : string) :
  (1 <= snd (DecodeRuneInString (String c s)))%nat.
Proof.
  unfold DecodeRuneInString.
  repeat match goal with
         | |- context [if ?b then _ else _] => destruct b
         | |- context [match ?t with EmptyString => _ | String _ _ => _ end] => destruct t
         end; cbn; lia.
Qed.

Lemma skip_length (n : nat) (s : string) :
  (String.length (skip n s) <= String.length s)%nat.
Proof.
  revert s; induction n as [|n IH]; intros [|c s]; cbn; auto.
Qed.

(** The bound on the runes in [Quote] is enough: more would not change
    the result. *)
Lemma quoteRunes_fuel (n : nat) :
  forall m s,
    (String.length s <= n)%nat -> (String.length s <= m)%nat ->
    quoteRunes n s = quoteRunes m s.
Proof.
  induction n as [|n IH]; intros m s Hn Hm.
  - destruct s; [now destruct m | cbn in Hn; lia].
  - destruct m as [|m]; [destruct s; [reflexivity | cbn in Hm; lia] |].
    destruct s as [|c0 t]; [reflexivity |].
    cbn [quoteRunes].
    pose proof (DecodeRuneInString_width c0 t) as Hw.
    destruct (DecodeRuneInString (String c0 t)) as [r width]. cbn [snd] in Hw.
    cbn in Hn, Hm.
    assert (Hs : forall k, (1 <= k)%nat ->
                 (String.length (skip k (String c0 t)) <= String.length t)%nat).
    { intros [|k] Hk; [lia |]. cbn. apply skip_length. }
    destruct ((width =? 1)%nat && (r =? RuneError)).
    + f_equal. f_equal. apply IH; specialize (Hs 1%nat); lia.
    + f_equal. apply IH; specialize (Hs width Hw); lia.
Qed.

(** ** The sequential part *)

Lemma connect_eq (d : DialOutcome) (p : AlpacaWebSocket) :
  connect d p =
  match d with
  | Dialed c hresp =>
    (Returns None, set_conn p (Some c),
     EDial (server p) (2 * Second) :: bodyCloseEvents hresp)
  | DialFailed err (Some hresp) =>
    (Returns (Some (errConnectionResponse err (StatusCode hresp) (Body hresp))),
     set_conn p None,
     EDial (server p) (2 * Second) :: EBodyReadAll :: bodyCloseEvents hresp)
  | DialFailed err None =>
    (Panics nilDereference, set_conn p None, [EDial (server p) (2 * Second)])
  end.
Proof.
  destruct d as [c [sc b [e2|]] | err [[sc b [e2|]]|]]; reflexivity.
Qed.

Lemma awaitResponse_ReadMessage h expect l :
  awaitResponse h expect l =
  let '(r, l', ev) := nextMessage h l in
  match r with
  | Returns (ReadErr err) => (Returns (EmptyString, Some err), l', ev)
  | Returns (Message mt pp) =>
    if Contains pp expect then (Returns (pp, None), l', ev)
    else
      let '(r', l'', ev') := awaitResponse h expect l' in
      (r', l'', ev ++ logResponse pp expect :: ev')
  | Panics msg => (Panics msg, l', ev)
  | Blocks => (Blocks, l', ev)
  end.
Proof.
  induction l as [|[now res | mt pp | err] l IH]; cbn.
  - reflexivity.
  - destruct (h now res) as [[e|] hev]; [reflexivity |].
    rewrite IH. destruct (nextMessage h l) as [[[[mt pp|err]| |] l'] ev]; cbn.
    + destruct (Contains pp expect); [reflexivity |].
      destruct (awaitResponse h expect l') as [[r' l''] ev'].
      now rewrite <- app_assoc.
    + reflexivity.
    + reflexivity.
    + reflexivity.
  - destruct (Contains pp expect); [reflexivity |].
    now destruct (awaitResponse h expect l) as [[r' l''] ev'].
  - reflexivity.
Qed.

(** [exchangeMessage] on a live connection, by the result of its write. *)
Lemma exchangeMessage_eq send expect p c :
  conn p = Some c ->
  exchangeMessage send expect p =
  let c1 := set_writes c (tl (writes c)) in
  match hd None (writes c) with
  | Some err =>
    (Returns (EmptyString, Some err), set_conn p (Some c1), [EWriteMessage TextMessage send])
  | None =>
    let '(r, l, ev) := awaitResponse (handlePong p (pongHandler c)) expect (incoming c) in
    (r, set_conn p (Some (set_incoming c1 l)), EWriteMessage TextMessage send :: ev)
  end.
Proof.
  intros Hc. unfold exchangeMessage, bind, WriteMessage, withConn, ret. rewrite Hc.
  destruct (hd None (writes c)); cbn; [reflexivity |].
  change (handlePong (set_conn p (Some (set_writes c (tl (writes c))))))
    with (handlePong p).
  now destruct (awaitResponse (handlePong p (pongHandler c)) expect (incoming c)) as [[r l] ev].
Qed.

Lemma exchangeMessage_nil send expect p :
  conn p = None -> exchangeMessage send expect p = (Panics nilDereference, p, []).
Proof.
  intros Hc. unfold exchangeMessage, bind, WriteMessage, withConn. now rewrite Hc.
Qed.

(** *** The loop of [exchangeMessage] *)


Lemma awaitResponse_success h expect l resp l' ev :
  awaitResponse h expect l = (Returns (resp, None), l', ev) ->
  Contains resp expect = true /\ exists mt, In (Frame mt resp) l.
Proof.
  revert l' ev; induction l as [|[now res | mt pp | err] l IH]; cbn; intros l' ev H.
  - discriminate.
  - destruct (h now res) as [[e|] hev]; [discriminate |].
    destruct (awaitResponse h expect l) as [[r l1] ev1] eqn:E.
    injection H as -> -> <-.
    destruct (IH _ _ eq_refl) as [Hc [mt Hin]]. split; [exact Hc | eauto].
  - destruct (Contains pp expect) eqn:Hc.
    + injection H as -> -> <-. split; [exact Hc | eauto].
    + destruct (awaitResponse h expect l) as [[r l1] ev1] eqn:E.
      injection H as -> -> <-.
      destruct (IH _ _ eq_refl) as [Hc' [mt' Hin]]. split; [exact Hc' | eauto].
  - discriminate.
Qed.

Lemma awaitResponse_failure p b expect l resp err l' ev :
  awaitResponse (handlePong p b) expect l = (Returns (resp, Some err), l', ev) ->
  resp = EmptyString
  /\ (In (Fail err) l \/ exists now, In (Pong now (Some err)) l).
Proof.
  revert l' ev; induction l as [|[now res | mt pp | e] l IH]; cbn; intros l' ev H.
  - discriminate.
  - unfold handlePong in H at 1. destruct b.
    + destruct res as [e|].
      * injection H as <- <- -> <-. split; [reflexivity | right; eauto].
      * destruct (awaitResponse _ expect l) as [[r l1] ev1] eqn:E.
        injection H as -> -> <-.
        destruct (IH _ _ eq_refl) as [Hr [Hin | [n Hin]]]; split; eauto.
    + destruct (awaitResponse _ expect l) as [[r l1] ev1] eqn:E.
      injection H as -> -> <-.
      destruct (IH _ _ eq_refl) as [Hr [Hin | [n Hin]]]; split; eauto.
  - destruct (Contains pp expect).
    + discriminate.
    + destruct (awaitResponse _ expect l) as [[r l1] ev1] eqn:E.
      injection H as -> -> <-.
      destruct (IH _ _ eq_refl) as [Hr [Hin | [n Hin]]]; split; eauto.
  - injection H as <- <- -> <-. split; [reflexivity | left; now left].
Qed.

Lemma awaitResponse_suffix h expect l :
  exists pre, l = pre ++ snd (fst (awaitResponse h expect l)).
Proof.
  induction l as [|[now res | mt pp | e] l [pre IH]]; cbn.
  - now exists [].
  - destruct (h now res) as [[e|] hev]; cbn.
    + now exists [Pong now res].
    + destruct (awaitResponse h expect l) as [[r l1] ev1]; cbn in *.
      exists (Pong now res :: pre). now rewrite IH at 1.
  - destruct (Contains pp expect); cbn.
    + now exists [Frame mt pp].
    + destruct (awaitResponse h expect l) as [[r l1] ev1]; cbn in *.
      exists (Frame mt pp :: pre). now rewrite IH at 1.
  - now exists [Fail e].
Qed.

Lemma awaitResponse_no_panic h expect l msg l' ev :
  awaitResponse h expect l <> (Panics msg, l', ev).
Proof.
  revert l' ev; induction l as [|[now res | mt pp | e] l IH]; cbn; intros l' ev H.
  - discriminate.
  - destruct (h now res) as [[e|] hev]; [discriminate |].
    destruct (awaitResponse h expect l) as [[r l1] ev1] eqn:E.
    injection H as Hr Hl Hev; subst. exact (IH _ _ eq_refl).
  - destruct (Contains pp expect); [discriminate |].
    destruct (awaitResponse h expect l) as [[r l1] ev1] eqn:E.
    injection H as Hr Hl Hev; subst. exact (IH _ _ eq_refl).
  - discriminate.
Qed.

(** *** [subscribe] *)

Arguments authMsg : simpl never.
Arguments subMsg : simpl never.
Arguments lit : simpl never.
Arguments deadlineOffset : simpl never.

(** [subscribe] by the results of its two exchanges. *)
Lemma subscribe_eq p :
  subscribe p =
  let '(r1, p1, ev1) := exchangeMessage (authMsg p) (lit "'authenticated'") p in
  match r1 with
  | Returns (resp, Some err) =>
    (Returns (Some err), p1, logAuthMsg p :: ev1 ++ [logAuthFailure resp err])
  | Returns (_, None) =>
    let '(r2, p2, ev2) := exchangeMessage (subMsg p) "streams" p1 in
    let ev := logAuthMsg p :: ev1
              ++ ELog LInfo "[alpaca] authenticated successfully" [] :: ev2 in
    match r2 with
    | Returns (resp, Some err) =>
      (Returns (Some err), p2, ev ++ [logSubFailure p resp err])
    | Returns (_, None) =>
      match conn p2 with
      | Some c2 =>
        (Returns (armErr c2), p2,
         ev ++ [logSubscribed p; ESetReadDeadline (armNow c2 + deadlineOffset p2)])
      | None => (Panics nilDereference, p2, ev ++ [logSubscribed p])
      end
    | Panics msg => (Panics msg, p2, ev)
    | Blocks => (Blocks, p2, ev)
    end
  | Panics msg => (Panics msg, p1, logAuthMsg p :: ev1)
  | Blocks => (Blocks, p1, logAuthMsg p :: ev1)
  end.
Proof.
  unfold subscribe, bind, get, emit, ret, panic.
  destruct (exchangeMessage (authMsg p) (lit "'authenticated'") p) as [[[[resp [err|]]|msg|] p1] ev1]; cbn;
    try reflexivity.
  destruct (exchangeMessage (subMsg p) "streams" p1) as [[[[resp2 [err|]]|msg|] p2] ev2]; cbn;
    try (now rewrite <- ?app_assoc).
  unfold setReadDeadline, SetReadDeadline, withConn.
  destruct (conn p2) as [c2|] eqn:E2; cbn.
  - rewrite E2. cbn. rewrite <- !app_assoc. cbn.
    assert (Hp : set_conn p2 (Some c2) = p2) by (destruct p2; cbn in *; now subst).
    now rewrite Hp.
  - now rewrite <- !app_assoc.
Qed.

Lemma hd_In {A} (x : A) (l : list (option A)) : hd None l = Some x -> In (Some x) l.
Proof. destruct l; cbn; [discriminate | intros ->; now left]. Qed.

Lemma In_tl {A} (x : A) (l : list A) : In x (tl l) -> In x l.
Proof. destruct l; cbn; auto. Qed.

(** A failed exchange returns the empty response and an error of the
    transport; the connection is left with the rest of the wire. *)
Lemma exchangeMessage_failure send expect p c resp err p' ev :
  conn p = Some c ->
  exchangeMessage send expect p = (Returns (resp, Some err), p', ev) ->
  resp = EmptyString
  /\ (hd None (writes c) = Some err \/ In (Fail err) (incoming c)
      \/ exists now, In (Pong now (Some err)) (incoming c)).
Proof.
  intros Hc H. rewrite (exchangeMessage_eq _ _ _ _ Hc) in H. cbn zeta in H.
  destruct (hd None (writes c)) as [e|].
  - injection H as <- <- _ _. auto.
  - destruct (awaitResponse _ expect (incoming c)) as [[r l] ev0] eqn:E.
    injection H as -> _ _. apply awaitResponse_failure in E as [-> [Hin | Hin]]; auto.
Qed.

(** The connection after an exchange: the writes lose their head, the
    wire a prefix. *)
Lemma exchangeMessage_conn send expect p c :
  conn p = Some c ->
  exists pre l,
    incoming c = pre ++ l
    /\ snd (fst (exchangeMessage send expect p))
       = set_conn p (Some (set_incoming (set_writes c (tl (writes c))) l)).
Proof.
  intros Hc. rewrite (exchangeMessage_eq _ _ _ _ Hc). cbn zeta.
  destruct (hd None (writes c)) as [e|].
  - exists [], (incoming c). split; [reflexivity |]. cbn. now destruct c.
  - destruct (awaitResponse_suffix (handlePong p (pongHandler c)) expect (incoming c))
      as [pre Hpre].
    destruct (awaitResponse _ expect (incoming c)) as [[r l] ev0]. cbn in *.
    now exists pre, l.
Qed.

(** ** The properties of the specification *)

(** C1 (the code departs from it).  When the dial fails and the remote
    returned no response, [connect] does not return an error carrying the
    underlying cause: the [defer] statement evaluates [hresp.Body] on the
    nil response and the call panics, after the dial and before the test
    [hresp != nil]. *)
Theorem connect_panics_without_response (p : AlpacaWebSocket) (err : error) :
  connect (DialFailed err None) p
  = (Panics nilDereference, set_conn p None, [EDial (server p) (2 * Second)]).
Proof. now rewrite connect_eq. Qed.


(** C7.  Whatever the connection does, the first event of [subscribe] is
    the informational log entry whose argument is the authentication
    request, and on a live connection the write of that request is the
    event after it.  The request contains the key and the secret as they
    are, and it changes when either of them changes. *)
Theorem subscribe_logs_credentials (p : AlpacaWebSocket) :
  (exists r p' ev,
      subscribe p = (r, p', ELog LInfo "[javierlopeza] %s" [AString (authMsg p)] :: ev)
      /\ (conn p <> None -> exists ev', ev = EWriteMessage TextMessage (authMsg p) :: ev'))
  /\ Contains (authMsg p) (apiKey p) = true
  /\ Contains (authMsg p) (apiSecret p) = true
  /\ (forall q, authMsg p = authMsg q -> apiSecret p = apiSecret q -> apiKey p = apiKey q)
  /\ (forall q, authMsg p = authMsg q -> apiKey p = apiKey q -> apiSecret p = apiSecret q).
Proof.
  split; [| split; [| split; [| split]]].
  - assert (Hw : conn p <> None ->
                 exists ev', snd (exchangeMessage (authMsg p) (lit "'authenticated'") p)
                             = EWriteMessage TextMessage (authMsg p) :: ev').
    { destruct (conn p) as [c|] eqn:Hc; [intros _ | congruence].
      rewrite (exchangeMessage_eq _ _ _ _ Hc). cbn zeta.
      destruct (hd None (writes c)); [now eexists |].
      destruct (awaitResponse _ _ (incoming c)) as [[r l] ev0]. now eexists. }
    rewrite subscribe_eq.
    destruct (exchangeMessage (authMsg p) (lit "'authenticated'") p)
      as [[[[resp [err|]]|msg|] p1] ev1]; cbn [snd] in Hw.
    + do 3 eexists. split; [reflexivity |]. intros Hn.
      destruct (Hw Hn) as [ev' ->]. now eexists.
    + destruct (exchangeMessage (subMsg p) "streams" p1)
        as [[[[resp2 [err|]]|msg|] p2] ev2].
      * do 3 eexists. split; [reflexivity |]. intros Hn.
        destruct (Hw Hn) as [ev' ->]. now eexists.
      * destruct (conn p2); do 3 eexists; (split; [reflexivity |]); intros Hn;
          destruct (Hw Hn) as [ev' ->]; now eexists.
      * do 3 eexists. split; [reflexivity |]. intros Hn.
        destruct (Hw Hn) as [ev' ->]. now eexists.
      * do 3 eexists. split; [reflexivity |]. intros Hn.
        destruct (Hw Hn) as [ev' ->]. now eexists.
    + do 3 eexists. split; [reflexivity |]. intros Hn.
      destruct (Hw Hn) as [ev' ->]. now eexists.
    + do 3 eexists. split; [reflexivity |]. intros Hn.
      destruct (Hw Hn) as [ev' ->]. now eexists.
  - unfold authMsg. apply Contains_middle.
  - unfold authMsg. rewrite <- (append_assoc _ (apiKey p)), <- (append_assoc _ (lit "', 'secret': '")).
    apply Contains_middle.
  - unfold authMsg. intros q H Hs. rewrite Hs in H.
    apply append_cancel_l in H. now apply append_cancel_r in H.
  - unfold authMsg. intros q H Hk. rewrite Hk in H.
    apply append_cancel_l, append_cancel_l, append_cancel_l in H.
    now apply append_cancel_r in H.
Qed.


(** The decimal text of [%d]: it reads back as the number, and for a
    number of three digits it is these digits. *)
Lemma Itoa_reads_back (n : Z) :
  option_map Z.of_int (NilZero.int_of_string (Itoa n)) = Some n.
Proof.
  unfold Itoa.
  assert (H : NilZero.int_of_string (NilZero.string_of_int (Z.to_int n)) = Some (Z.to_int n)).
  { apply NilZero.isi; destruct n as [|q|q]; cbn; try discriminate;
      intros E; injection E as E; now apply (DecimalPos.Unsigned.to_uint_nonnil q). }
  rewrite H. cbn. now rewrite DecimalZ.of_to.
Qed.

Lemma Itoa_three_digits (n : Z) :
  100 <= n <= 999 ->
  Itoa n = str1 (48 + n / 100) +++ str1 (48 + n / 10 mod 10) +++ str1 (48 + n mod 10).
Proof.
  intros Hn.
  assert (All : forallb (fun k : nat =>
                           let z := Z.of_nat k in
                           String.eqb (Itoa z)
                             (str1 (48 + z / 100) +++ str1 (48 + z / 10 mod 10)
                              +++ str1 (48 + z mod 10)))
                  (seq 100 900) = true) by (vm_compute; reflexivity).
  rewrite forallb_forall in All.
  specialize (All (Z.to_nat n)). cbv zeta in All.
  rewrite Z2Nat.id in All by lia.
  apply String.eqb_eq, All, in_seq. lia.
Qed.

(** C9.  When the dial fails and the remote had answered, [listen]
    returns the error that [connect] built: it wraps the cause and its
    message is the cause followed by the status code in decimal and the
    body as read.  The decimal text reads back as the status code, and
    for a status of three digits it is these three digits.  The body is
    closed once and no connection is held. *)
Theorem listen_dial_failure_with_response (s : State) (err : error) (hresp : Response) :
  let failure := errConnectionResponse err (StatusCode hresp) (Body hresp) in
  exists ev,
    listen (DialFailed err (Some hresp)) s
    = (Returns (Some failure), set_this s (set_conn (this s) None), ev)
    /\ Error failure
       = "[alpaca] connection failure, err: " +++ Error err +++ ", status_code: "
         +++ Itoa (StatusCode hresp) +++ ", body: " +++ Body hresp
    /\ Unwrap failure = Some err
    /\ Contains (Error failure) (Itoa (StatusCode hresp)) = true
    /\ Contains (Error failure) (Body hresp) = true
    /\ List.length (filter isBodyClose ev) = 1%nat
    /\ option_map Z.of_int (NilZero.int_of_string (Itoa (StatusCode hresp)))
       = Some (StatusCode hresp)
    /\ (100 <= StatusCode hresp <= 999 ->
        Error failure
        = "[alpaca] connection failure, err: " +++ Error err +++ ", status_code: "
          +++ str1 (48 + StatusCode hresp / 100)
          +++ str1 (48 + StatusCode hresp / 10 mod 10)
          +++ str1 (48 + StatusCode hresp mod 10)
          +++ ", body: " +++ Body hresp).
Proof.
  intros failure.
  assert (Hstatus : Contains (Error failure) (Itoa (StatusCode hresp)) = true).
  { subst failure. unfold errConnectionResponse. cbn [Error].
    rewrite <- (append_assoc _ (Error err)), <- (append_assoc _ ", status_code: ").
    apply Contains_middle. }
  assert (Hbody : Contains (Error failure) (Body hresp) = true).
  { subst failure. unfold errConnectionResponse. cbn [Error].
    rewrite <- (append_assoc _ (Error err)), <- (append_assoc _ ", status_code: "),
      <- (append_assoc _ (Itoa _)), <- (append_assoc _ ", body: ").
    apply Contains_append_l, Contains_prefix.
    generalize (Body hresp) as b. induction b as [|x b IH]; cbn; [reflexivity |].
    now destruct (ascii_dec x x). }
  assert (Hdigits : 100 <= StatusCode hresp <= 999 ->
                    Error failure
                    = "[alpaca] connection failure, err: " +++ Error err +++ ", status_code: "
                      +++ str1 (48 + StatusCode hresp / 100)
                      +++ str1 (48 + StatusCode hresp / 10 mod 10)
                      +++ str1 (48 + StatusCode hresp mod 10)
                      +++ ", body: " +++ Body hresp).
  { intros Hn. subst failure. unfold errConnectionResponse. cbn [Error].
    rewrite (Itoa_three_digits _ Hn). now rewrite !append_assoc. }
  unfold listen, bind, onThis. rewrite connect_eq. cbn.
  eexists. split; [reflexivity |]. split; [reflexivity |]. split; [reflexivity |].
  split; [exact Hstatus | split; [exact Hbody |]].
  split; [unfold bodyCloseEvents; now destruct (bodyCloseErr hresp) |].
  split; [apply Itoa_reads_back | exact Hdigits].
Qed.

(** *** The subscription request *)

Lemma ReplaceAll_append (a b : string) (old new : ascii) :
  ReplaceAll (a +++ b) old new = ReplaceAll a old new +++ ReplaceAll b old new.
Proof. induction a as [|x a IH]; cbn; [reflexivity | now rewrite IH]. Qed.

Lemma ReplaceAll_absent (s : string) (old new : ascii) :
  ~ In old (list_ascii_of_string s) -> ReplaceAll s old new = s.
Proof.
  induction s as [|x s IH]; cbn; intros H; [reflexivity |].
  destruct (Ascii.eqb_spec x old) as [-> | Hne]; [tauto |].
  rewrite IH; tauto.
Qed.

Lemma ReplaceAll_Join (elems : list string) (old new : ascii) :
  Forall (fun e => ~ In old (list_ascii_of_string e)) elems ->
  ReplaceAll (Join elems (String old EmptyString)) old new
  = Join elems (String new EmptyString).
Proof.
  induction 1 as [|e [|e' rest] He Hrest IH].
  - reflexivity.
  - cbn. now apply ReplaceAll_absent.
  - change (Join (e :: e' :: rest) (String old EmptyString))
      with (e +++ String old EmptyString +++ Join (e' :: rest) (String old EmptyString)).
    change (Join (e :: e' :: rest) (String new EmptyString))
      with (e +++ String new EmptyString +++ Join (e' :: rest) (String new EmptyString)).
    rewrite !ReplaceAll_append, IH, (ReplaceAll_absent e) by exact He.
    cbn. now rewrite Ascii.eqb_refl.
Qed.

(** On topics whose quoted form has no space the request holds the quoted
    topics joined by commas, in the order of the list. *)
Lemma subMsg_comma_joined (p : AlpacaWebSocket) :
  Forall (fun t => ~ In " "%char (list_ascii_of_string (Quote t))) (subscriptions p) ->
  subMsg p
  = lit "{'action': 'listen', 'data': {'streams': "
    +++ "[" +++ Join (map Quote (subscriptions p)) "," +++ "]" +++ "}}".
Proof.
  intros H. unfold subMsg, SprintfQ. f_equal.
  rewrite !ReplaceAll_append, ReplaceAll_Join.
  - cbn. now rewrite append_assoc.
  - now apply Forall_map.
Qed.

(** C10 (the code departs from it).  With the one topic [T.BRK B] the
    request written to the connection has the element [T.BRK,B]: the
    separator of the quoted list is replaced through the whole text, so
    the space inside the topic becomes a comma too, and the request is not
    the quoted, comma-joined array of the topics. *)
Theorem subMsg_space_in_topic (p : AlpacaWebSocket) :
  subscriptions p = ["T.BRK B"] ->
  subMsg p = lit "{'action': 'listen', 'data': {'streams': ['T.BRK,B']}}"
  /\ subMsg p <> lit "{'action': 'listen', 'data': {'streams': "
                 +++ "[" +++ Join (map Quote (subscriptions p)) "," +++ "]" +++ "}}"
  /\ (forall c mt rest,
         conn p = Some c -> writes c = [] ->
         incoming c = Frame mt (lit "'authenticated'") :: rest ->
         In (EWriteMessage TextMessage
               (lit "{'action': 'listen', 'data': {'streams': ['T.BRK,B']}}"))
            (snd (subscribe p))).
Proof.
  intros Hs.
  assert (Hmsg : subMsg p = lit "{'action': 'listen', 'data': {'streams': ['T.BRK,B']}}")
    by (unfold subMsg; rewrite Hs; reflexivity).
  split; [exact Hmsg | split].
  - rewrite Hmsg, Hs. intros H. vm_compute in H. discriminate H.
  - intros c mt rest Hc Hw Hin. rewrite subscribe_eq.
    rewrite (exchangeMessage_eq _ _ _ _ Hc). cbn zeta. rewrite Hw, Hin.
    cbn [hd awaitResponse].
    replace (Contains (lit "'authenticated'") (lit "'authenticated'")) with true
      by reflexivity.
    cbv iota beta.
    set (p1 := set_conn p _).
    assert (Hc1 : conn p1 = Some (set_incoming (set_writes c (tl [])) rest)) by reflexivity.
    rewrite (exchangeMessage_eq _ _ _ _ Hc1). cbn zeta. cbn [writes set_incoming set_writes tl hd].
    rewrite Hmsg.
    destruct (awaitResponse _ "streams" _) as [[[[resp [err|]]|msg|] l] ev2];
      cbn [conn set_conn snd]; rewrite <- ?app_assoc; cbn [app];
      do 4 right; now left.
Qed.

(** ** Counting events *)

Lemma filter_length_app {A} (f : A -> bool) (a b : list A) :
  List.length (filter f (a ++ b))
  = (List.length (filter f a) + List.length (filter f b))%nat.
Proof. now rewrite filter_app, length_app. Qed.


Lemma errorSends_app (a b : list event) :
  errorSends (a ++ b) = (errorSends a + errorSends b)%nat.
Proof. apply filter_length_app. Qed.

Lemma deadlines_app (a b : list event) : deadlines (a ++ b) = deadlines a ++ deadlines b.
Proof. apply flat_map_app. Qed.

Lemma armings_app offset armed (a b : list event) :
  armings offset armed (a ++ b) = armings offset armed a ++ armings offset armed b.
Proof. apply flat_map_app. Qed.

Lemma textPayloads_app (a b : list event) :
  textPayloads (a ++ b) = textPayloads a ++ textPayloads b.
Proof. apply flat_map_app. Qed.

Lemma forallb_weaken {A} (f g : A -> bool) (l : list A) :
  (forall x, f x = true -> g x = true) -> forallb f l = true -> forallb g l = true.
Proof. rewrite !forallb_forall. auto. Qed.

Lemma no_count {A} (f g : A -> bool) (l : list A) :
  (forall x, f x = true -> g x = false) ->
  forallb f l = true -> List.length (filter g l) = 0%nat.
Proof.
  intros Hfg. induction l as [|x l IH]; cbn; [reflexivity |].
  intros H. apply andb_prop in H as [Hx Hl]. rewrite (Hfg _ Hx). auto.
Qed.

Lemma readEvent_stream e : readEvent e = true -> streamEvent e = true.
Proof. now destruct e. Qed.

Lemma handshake_closes ev : forallb handshakeEvent ev = true -> closes ev = 0%nat.
Proof. apply no_count. now intros []. Qed.

Lemma stream_closes ev : forallb streamEvent ev = true -> closes ev = 0%nat.
Proof. apply no_count. now intros []. Qed.

Lemma handshake_errorSends ev : forallb handshakeEvent ev = true -> errorSends ev = 0%nat.
Proof. apply no_count. now intros []. Qed.

Lemma handshake_streamed ev rest :
  forallb handshakeEvent ev = true -> streamed (ev ++ EGo :: rest) = rest.
Proof.
  induction ev as [|e ev IH]; cbn; [reflexivity |].
  intros H. apply andb_prop in H as [He Hev]. destruct e; try discriminate; auto.
Qed.

(** ** What stays of a client and of its connection *)

Lemma sameLink_refl p : sameLink p p.
Proof. now split. Qed.

Lemma sameLink_trans p q r : sameLink p q -> sameLink q r -> sameLink p r.
Proof. intros [H1 H2] [H3 H4]. split; congruence. Qed.

Lemma sameLink_incoming p c l :
  conn p = Some c -> sameLink p (set_conn p (Some (set_incoming c l))).
Proof. intros Hc. split; [reflexivity |]. now rewrite Hc. Qed.

Lemma sameLink_output p msg : sameLink p (send_output p msg).
Proof. now split. Qed.

Lemma sameLink_conn p p' c :
  sameLink p p' -> conn p = Some c -> exists c', conn p' = Some c' /\ fixed c' = fixed c.
Proof.
  intros [_ H] Hc. rewrite Hc in H. destruct (conn p') as [c'|]; cbn in H; [| discriminate].
  injection H as H1 H2 H3 H4. exists c'. split; [reflexivity |]. unfold fixed. congruence.
Qed.

Lemma sameLink_offset p p' : sameLink p p' -> deadlineOffset p' = deadlineOffset p.
Proof. intros [H _]. unfold deadlineOffset. now rewrite H. Qed.

Lemma set_conn_same p c : conn p = Some c -> set_conn p (Some c) = p.
Proof. destruct p; cbn; now intros ->. Qed.

(** ** Reads *)

Lemma ReadMessage_eq p c :
  conn p = Some c ->
  ReadMessage p =
  let '(r, l, ev) := nextMessage (handlePong p (pongHandler c)) (incoming c) in
  (r, set_conn p (Some (set_incoming c l)), ev).
Proof. intros Hc. unfold ReadMessage. now rewrite Hc. Qed.

Lemma nextMessage_events p b l :
  let '(r, l', ev) := nextMessage (handlePong p b) l in
  forallb readEvent ev = true
  /\ (forall armed, b = true -> deadlines ev = armings (deadlineOffset p) armed ev)
  /\ textPayloads ev
     = match r with Returns (Message TextMessage pp) => [pp] | _ => [] end
  /\ (forall msg, r <> Panics msg).
Proof.
  induction l as [|[now res | mt pp | err] l IH]; cbn.
  - repeat split; congruence.
  - unfold handlePong at 1. destruct b.
    + destruct res as [e|]; cbn.
      * repeat split; congruence.
      * destruct (nextMessage _ l) as [[r l'] ev]. destruct IH as (H1 & H2 & H3 & H4).
        cbn. repeat split; auto. intros armed Hb. specialize (H2 armed Hb).
        unfold deadlines, armings in *. cbn. now rewrite H2.
    + destruct (nextMessage _ l) as [[r l'] ev]. destruct IH as (H1 & H2 & H3 & H4).
      cbn. repeat split; auto. discriminate.
  - repeat split; try congruence. now destruct mt.
  - repeat split; congruence.
Qed.

Lemma awaitResponse_events p b expect l :
  let '(r, l', ev) := awaitResponse (handlePong p b) expect l in
  forallb handshakeEvent ev = true
  /\ (forall armed, b = true -> deadlines ev = armings (deadlineOffset p) armed ev).
Proof.
  induction l as [|[now res | mt pp | err] l IH]; cbn.
  - split; auto.
  - unfold handlePong at 1. destruct b.
    + destruct res as [e|]; cbn.
      * split; auto.
      * destruct (awaitResponse _ expect l) as [[r l'] ev]. destruct IH as (H1 & H2).
        cbn. split; auto. intros armed Hb. specialize (H2 armed Hb).
        unfold deadlines, armings in *. cbn. now rewrite H2.
    + destruct (awaitResponse _ expect l) as [[r l'] ev]. destruct IH as (H1 & H2).
      cbn. split; auto. discriminate.
  - destruct (Contains pp expect); [split; auto |].
    destruct (awaitResponse _ expect l) as [[r l'] ev]. destruct IH as (H1 & H2).
    cbn. split; auto.
  - split; auto.
Qed.

(** ** The handshake inside [listen] *)

Lemma sameLink_set p c c' :
  conn p = Some c -> fixed c' = fixed c -> sameLink p (set_conn p (Some c')).
Proof. intros Hc Hf. split; [reflexivity |]. cbn. now rewrite Hc, Hf. Qed.

Lemma exchangeMessage_events send expect p c :
  conn p = Some c ->
  let '(r, p', ev) := exchangeMessage send expect p in
  forallb handshakeEvent ev = true
  /\ (pongHandler c = true ->
      forall armed, deadlines ev = armings (deadlineOffset p) armed ev)
  /\ sameLink p p'
  /\ outputChan p' = outputChan p
  /\ (forall msg, r <> Panics msg).
Proof.
  intros Hc. rewrite (exchangeMessage_eq _ _ _ _ Hc). cbn zeta.
  destruct (hd None (writes c)) as [e|].
  - split; [reflexivity |]. split; [reflexivity |].
    split; [now apply (sameLink_set _ c) |]. split; [reflexivity | congruence].
  - pose proof (awaitResponse_events p (pongHandler c) expect (incoming c)) as H.
    pose proof (awaitResponse_no_panic (handlePong p (pongHandler c)) expect (incoming c))
      as Hn.
    destruct (awaitResponse _ expect (incoming c)) as [[r l] ev]. destruct H as [H1 H2].
    split; [exact H1 |]. split; [| split; [now apply (sameLink_set _ c) |]].
    + intros Hb armed. unfold deadlines, armings in *. cbn. now apply H2.
    + split; [reflexivity |]. intros msg ->. now apply (Hn msg l ev).
Qed.

Lemma subscribe_events p c :
  conn p = Some c -> pongHandler c = true ->
  let '(r, p', ev) := subscribe p in
  forallb handshakeEvent ev = true
  /\ deadlines ev = armings (deadlineOffset p) (armNow c) ev
  /\ sameLink p p'
  /\ outputChan p' = outputChan p
  /\ (forall msg, r <> Panics msg).
Proof.
  intros Hc Hh. rewrite subscribe_eq.
  pose proof (exchangeMessage_events (authMsg p) (lit "'authenticated'") p c Hc) as H1.
  destruct (exchangeMessage (authMsg p) (lit "'authenticated'") p)
    as [[[[resp [e|]]|msg|] p1] ev1]; destruct H1 as (F1 & D1 & L1 & O1 & N1);
    specialize (D1 Hh (armNow c)).
  - split; [| split; [| split; [exact L1 | split; [exact O1 | congruence]]]].
    + solve_forallb.
    + solve_flat_map.
  - destruct (sameLink_conn _ _ _ L1 Hc) as (c1 & Hc1 & Hf1).
    assert (Hh1 : pongHandler c1 = true) by (unfold fixed in Hf1; congruence).
    assert (Ha1 : armNow c1 = armNow c) by (unfold fixed in Hf1; congruence).
    pose proof (exchangeMessage_events (subMsg p) "streams" p1 c1 Hc1) as H2.
    destruct (exchangeMessage (subMsg p) "streams" p1)
      as [[[[resp2 [e|]]|msg|] p2] ev2]; destruct H2 as (F2 & D2 & L2 & O2 & N2);
      specialize (D2 Hh1 (armNow c)); rewrite (sameLink_offset _ _ L1) in D2.
    + split; [| split; [| split; [eauto using sameLink_trans | split; congruence]]].
      * solve_forallb.
      * solve_flat_map.
    + destruct (sameLink_conn _ _ _ L2 Hc1) as (c2 & Hc2 & Hf2). rewrite Hc2.
      assert (Ha2 : armNow c2 = armNow c) by (unfold fixed in Hf1, Hf2; congruence).
      rewrite Ha2, (sameLink_offset _ _ L2), (sameLink_offset _ _ L1).
      split; [| split; [| split; [eauto using sameLink_trans | split; congruence]]].
      * solve_forallb.
      * solve_flat_map.
    + now elim (N2 msg).
    + split; [| split; [| split; [eauto using sameLink_trans | split; congruence]]].
      * solve_forallb.
      * solve_flat_map.
  - now elim (N1 msg).
  - split; [| split; [| split; [exact L1 | split; [exact O1 | congruence]]]].
    + solve_forallb.
    + solve_flat_map.
Qed.

(** ** The two goroutines: what every turn keeps *)

Lemma quiet_app_l a b : errorSends a = 0%nat -> quietAfterErr (a ++ b) = quietAfterErr b.
Proof.
  induction a as [|e a IH]; cbn; [reflexivity |].
  unfold errorSends in *. cbn. destruct (isErrorChan e); cbn; [discriminate | exact IH].
Qed.

Lemma quiet_app_r a b :
  quietAfterErr a = true -> forallb calm b = true -> quietAfterErr (a ++ b) = true.
Proof.
  induction a as [|e a IH]; cbn; intros Ha Hb.
  - clear Ha. induction b as [|x b IHb]; cbn in *; [reflexivity |].
    apply andb_prop in Hb as [Hx Hb]. destruct x; cbn in *; try discriminate; auto.
  - destruct (isErrorChan e); [| auto]. rewrite forallb_app, Ha. exact Hb.
Qed.

Lemma calm_errorSends ev : forallb calm ev = true -> errorSends ev = 0%nat.
Proof. apply no_count. now intros []. Qed.

Lemma quiet_decompose ev a err b :
  quietAfterErr ev = true -> ev = a ++ EErrorChan err :: b -> forallb calm b = true.
Proof.
  intros H ->. induction a as [|e a IH]; cbn in H; [exact H |].
  destruct (isErrorChan e); [| auto].
  rewrite forallb_app in H. apply andb_prop in H as [_ H]. cbn in H. discriminate.
Qed.

Lemma quiet_once ev : quietAfterErr ev = true -> (errorSends ev <= 1)%nat.
Proof.
  induction ev as [|e ev IH]; cbn; intros H; [unfold errorSends; cbn; lia |].
  unfold errorSends in *. cbn. destruct (isErrorChan e); cbn; [| auto].
  apply calm_errorSends in H. unfold errorSends in H. lia.
Qed.

Lemma handlerOn_link p p' : sameLink p p' -> handlerOn p -> handlerOn p'.
Proof.
  intros [_ H] Hon c' Hc'. rewrite Hc' in H.
  destruct (conn p) as [c|] eqn:Hc; [| discriminate].
  injection H as H _ _ _. rewrite H. now apply Hon.
Qed.

Lemma stretch_refl s : stretch s [] s.
Proof.
  split; auto using sameLink_refl.
  - now rewrite !app_nil_r.
Qed.

Lemma stretch_trans s ev1 s1 ev2 s2 :
  stretch s ev1 s1 -> stretch s1 ev2 s2 -> stretch s (ev1 ++ ev2) s2.
Proof.
  intros A B. split.
  - rewrite forallb_app, (st_events _ _ _ A), (st_events _ _ _ B). reflexivity.
  - exact (sameLink_trans _ _ _ (st_link _ _ _ A) (st_link _ _ _ B)).
  - intros Hon armed. rewrite deadlines_app, armings_app.
    rewrite (st_deadlines _ _ _ A Hon armed).
    rewrite (st_deadlines _ _ _ B (handlerOn_link _ _ (st_link _ _ _ A) Hon) armed).
    now rewrite (sameLink_offset _ _ (st_link _ _ _ A)).
  - rewrite (st_flow _ _ _ B), app_assoc, (st_flow _ _ _ A), textPayloads_app.
    now rewrite <- !app_assoc.
  - intros H. exact (st_room _ _ _ B (st_room _ _ _ A H)).
  - intros H. pose proof (st_room _ _ _ A H) as H1.
    destruct (st_sent _ _ _ A H) as [Hz | Hi].
    + rewrite (quiet_app_l _ _ Hz). exact (st_quiet _ _ _ B H1).
    + apply quiet_app_r; [exact (st_quiet _ _ _ A H) | exact (proj1 (st_idle _ _ _ B Hi))].
  - intros H. pose proof (st_room _ _ _ A H) as H1. rewrite errorSends_app.
    destruct (st_sent _ _ _ B H1) as [Hz2 | Hi2]; [| now right].
    destruct (st_sent _ _ _ A H) as [Hz1 | Hi1].
    + left. lia.
    + right. exact (proj2 (st_idle _ _ _ B Hi1)).
  - intros Hi. destruct (st_idle _ _ _ A Hi) as [C1 I1].
    destruct (st_idle _ _ _ B I1) as [C2 I2].
    split; [| exact I2]. now rewrite forallb_app, C1, C2.
Qed.

Lemma read_errorSends ev : forallb readEvent ev = true -> errorSends ev = 0%nat.
Proof. apply no_count. now intros []. Qed.

Lemma quiet_no_send ev : errorSends ev = 0%nat -> quietAfterErr ev = true.
Proof. intros H. rewrite <- (app_nil_r ev). now rewrite quiet_app_l. Qed.

Lemma read_quiet ev : forallb readEvent ev = true -> quietAfterErr ev = true.
Proof. intros H. now apply quiet_no_send, read_errorSends. Qed.

Lemma read_stream ev : forallb readEvent ev = true -> forallb streamEvent ev = true.
Proof. apply forallb_weaken, readEvent_stream. Qed.

(** A turn of the goroutine of [receiveMessages]. *)
Lemma receiveMessages_stretch s :
  let '(s', ev) := receiveMessages s in
  stretch s ev s' /\ sending s' = sending s /\ sched s' = sched s.
Proof.
  unfold receiveMessages. destruct (pump s) eqn:Hp;
    try (split; [apply stretch_refl | split; reflexivity]).
  - (* PumpReading *)
    destruct (conn (this s)) as [c|] eqn:Hc.
    + rewrite (ReadMessage_eq _ _ Hc).
      pose proof (nextMessage_events (this s) (pongHandler c) (incoming c)) as H.
      destruct (nextMessage _ (incoming c)) as [[r l] ev]. destruct H as (F & D & T & N).
      pose proof (sameLink_incoming _ _ l Hc) as L.
      assert (Hd : handlerOn (this s) ->
                   forall armed, deadlines ev = armings (deadlineOffset (this s)) armed ev)
        by (intros Hon armed; apply D; now apply Hon).
      destruct r as [[[|] pp | err] | msg |].
      * (* text frame *)
        split; [| split; reflexivity]. split; cbn; auto using read_stream.
        -- unfold inFlight. cbn. rewrite Hp, T. now rewrite !app_nil_r.
        -- intros R. unfold roomForError in *. cbn. now rewrite Hp in R.
        -- intros _. now apply read_quiet.
        -- intros _. left. now apply read_errorSends.
        -- rewrite Hp. discriminate.
      * (* binary frame *)
        split; [| split; reflexivity]. split; cbn.
        -- rewrite forallb_app, (read_stream _ F). reflexivity.
        -- exact L.
        -- intros Hon armed. rewrite deadlines_app, armings_app, (Hd Hon armed).
           reflexivity.
        -- unfold inFlight. cbn. rewrite Hp, textPayloads_app, T. now rewrite !app_nil_r.
        -- intros R. unfold roomForError in *. cbn. now rewrite Hp in *.
        -- intros _. rewrite quiet_app_l by now apply read_errorSends. reflexivity.
        -- intros _. left. rewrite errorSends_app, (read_errorSends _ F). reflexivity.
        -- rewrite Hp. discriminate.
      * (* read error *)
        unfold sendErr. cbn [errorChan set_this].
        destruct (List.length (errorChan s) <? errorChanCap)%nat eqn:Hroom.
        -- split; [| split; reflexivity]. split; cbn.
           ++ rewrite forallb_app, (read_stream _ F). reflexivity.
           ++ exact L.
           ++ intros Hon armed. rewrite deadlines_app, armings_app, (Hd Hon armed).
              reflexivity.
           ++ unfold inFlight. cbn. rewrite Hp, textPayloads_app, T. now rewrite !app_nil_r.
           ++ intros _. exact I.
           ++ intros _. rewrite quiet_app_l by now apply read_errorSends. reflexivity.
           ++ intros _. now right.
           ++ rewrite Hp. discriminate.
        -- assert (Hno : ~ roomForError s).
           { unfold roomForError. rewrite Hp. intros E. rewrite E in Hroom. discriminate. }
           split; [| split; reflexivity]. split; cbn; try tauto.
           ++ rewrite forallb_app, (read_stream _ F). reflexivity.
           ++ intros Hon armed. rewrite deadlines_app, armings_app, (Hd Hon armed).
              reflexivity.
           ++ unfold inFlight. cbn. rewrite Hp, textPayloads_app, T. now rewrite !app_nil_r.
           ++ rewrite Hp. discriminate.
      * now elim (N msg).
      * (* nothing more on the wire *)
        split; [| split; reflexivity]. split; cbn; auto using read_stream.
        -- unfold inFlight. cbn. rewrite Hp, T. now rewrite !app_nil_r.
        -- intros _. now apply read_quiet.
        -- intros _. left. now apply read_errorSends.
        -- rewrite Hp. discriminate.
    + unfold ReadMessage. rewrite Hc.
      split; [| split; reflexivity]. split; cbn; auto using sameLink_refl.
      all: try (unfold inFlight; cbn; rewrite Hp; now rewrite !app_nil_r).
      all: try (rewrite Hp; discriminate).
  - (* PumpSendingErr *)
    assert (Hno : ~ roomForError s) by (unfold roomForError; now rewrite Hp).
    unfold sendErr. destruct (List.length (errorChan s) <? errorChanCap)%nat;
      (split; [| split; reflexivity]); split; cbn; auto using sameLink_refl; try tauto.
    all: try (unfold inFlight; cbn; rewrite Hp; now rewrite !app_nil_r).
    all: try (rewrite Hp; discriminate).
Qed.

Lemma stretch_sched s ev s' cs : stretch s ev s' -> stretch s ev (set_sched s' cs).
Proof. intros []. split; auto. Qed.

Lemma stretch_step s ev1 s1 (X : outcome error * State * list event) :
  stretch s ev1 s1 ->
  (let '(r, s2, ev2) := X in stretch s1 ev2 s2 /\ (r <> Blocks -> sending s2 = None)) ->
  let '(r, s2, ev2) := X in
  stretch s (ev1 ++ ev2) s2 /\ (r <> Blocks -> sending s2 = None).
Proof.
  destruct X as [[r s2] ev2]. intros A [B C]. split; [| exact C].
  exact (stretch_trans _ _ _ _ _ A B).
Qed.

(** The loop of [listen]. *)
Lemma selectLoop_stretch cs :
  forall s,
    let '(r, s', ev) := selectLoop cs s in
    stretch s ev s' /\ (r <> Blocks -> sending s' = None).
Proof.
  induction cs as [|c rest IH]; intros s; cbn [selectLoop].
  - split; [apply stretch_sched, stretch_refl | congruence].
  - destruct c as [| | now res | |].
    + (* Pump *)
      pose proof (receiveMessages_stretch s) as H.
      destruct (receiveMessages s) as [s1 ev1]. destruct H as [A _].
      pose proof (stretch_step s ev1 s1 (selectLoop rest s1) A (IH s1)) as H.
      now destruct (selectLoop rest s1) as [[r s2] ev2].
    + (* RecvErr *)
      destruct (sending s) as [msg|] eqn:Hs; [apply IH |].
      destruct (errorChan s) as [|err buf] eqn:He; [apply IH |].
      split; [| intros _; exact Hs].
      apply stretch_sched. split; cbn; auto using sameLink_refl.
      * unfold inFlight. cbn. now rewrite !app_nil_r.
      * unfold roomForError. cbn. rewrite He. destruct (pump s); auto; discriminate.
    + (* Tick *)
      destruct (sending s) as [msg|] eqn:Hs; [apply IH |].
      unfold WriteControlPing, withConn. destruct (conn (this s)) as [c|] eqn:Hc.
      * assert (A : stretch s [EPing (now + Second)]
                      (set_this s (set_conn (this s) (Some c)))).
        { split; cbn; auto.
          - split; [reflexivity |]. cbn. now rewrite Hc.
          - unfold inFlight. cbn. now rewrite !app_nil_r. }
        destruct res as [err|].
        -- split; [| intros _; exact Hs].
           apply stretch_sched.
           apply (stretch_trans _ _ _ _ _ A). split; cbn; auto using sameLink_refl.
           unfold inFlight. cbn. now rewrite !app_nil_r.
        -- pose proof (stretch_step s _ _ (selectLoop rest _) A (IH _)) as H.
           now destruct (selectLoop rest _) as [[r s2] ev2].
      * split; [| intros _; exact Hs].
        apply stretch_sched. split; cbn; auto using sameLink_refl.
        unfold inFlight. cbn. now rewrite !app_nil_r.
    + (* RecvOut *)
      destruct (sending s) as [msg|] eqn:Hs; [apply IH |].
      destruct (pump s) as [| | pp | | |] eqn:Hp; try apply IH.
      assert (A : stretch s [EOut pp] (set_sending (set_pump s PumpReading) (Some pp))).
      { split; cbn; auto using sameLink_refl.
        - unfold inFlight. cbn. rewrite Hs, Hp. now rewrite !app_nil_r.
        - unfold roomForError. cbn. now rewrite Hp.
        - rewrite Hp. discriminate. }
      pose proof (stretch_step s _ _ (selectLoop rest _) A (IH _)) as H.
      now destruct (selectLoop rest _) as [[r s2] ev2].
    + (* Sink *)
      destruct (sending s) as [msg|] eqn:Hs; [| apply IH].
      assert (A : stretch s []
                    (set_sending (set_this s (send_output (this s) msg)) None)).
      { split; cbn; auto using sameLink_output.
        unfold inFlight. cbn. rewrite Hs. now rewrite <- !app_assoc, app_nil_r. }
      pose proof (stretch_step s _ _ (selectLoop rest _) A (IH _)) as H.
      now destruct (selectLoop rest _) as [[r s2] ev2].
Qed.

(** The goroutine of [receiveMessages] after [listen] has returned. *)
Lemma afterReturn_stretch cs :
  forall s, let '(s', ev) := afterReturn cs s in stretch s ev s' /\ sending s' = sending s.
Proof.
  induction cs as [|c rest IH]; intros s; cbn [afterReturn].
  - split; [apply stretch_refl | reflexivity].
  - destruct c; try apply IH.
    pose proof (receiveMessages_stretch s) as H.
    destruct (receiveMessages s) as [s1 ev1]. destruct H as (A & S1 & _).
    specialize (IH s1). destruct (afterReturn rest s1) as [s2 ev2]. destruct IH as [B S2].
    split; [exact (stretch_trans _ _ _ _ _ A B) | congruence].
Qed.

(** ** [listen], path by path *)

Lemma set_this_same s c :
  conn (this s) = Some c -> set_this s (set_conn (this s) (Some c)) = s.
Proof. intros Hc. destruct s as [p q b m cs]. cbn in *. now rewrite (set_conn_same _ _ Hc). Qed.

Lemma closeConn_eq s c :
  conn (this s) = Some c -> closeConn s = (Returns tt, s, closeEvents c).
Proof.
  intros Hc. unfold closeConn, bind, onThis, Close, withConn, emit, ret, closeEvents.
  rewrite Hc, (set_this_same _ _ Hc). now destruct (closeErr c).
Qed.

Lemma closeEvents_fixed c c' : fixed c' = fixed c -> closeEvents c' = closeEvents c.
Proof. unfold fixed, closeEvents. intros H. injection H as _ _ _ ->. reflexivity. Qed.

Arguments subscribe : simpl never.
Arguments selectLoop : simpl never.
Arguments closeConn : simpl never.
Arguments bodyCloseEvents : simpl never.
Arguments closeEvents : simpl never.

Lemma listen_dialed c hresp s :
  listen (Dialed c hresp) s =
  let p1 := set_conn (this s) (Some (set_pongHandler c true)) in
  let pre := preamble (this s) hresp in
  let '(r1, p2, ev1) := subscribe p1 in
  match r1 with
  | Returns None =>
    let s2 := set_pump (set_errorChan (set_this s p2) []) PumpReading in
    if pingPeriod (this s) <=? 0
    then (Panics "non-positive interval for NewTicker", s2,
          pre ++ ev1 ++ EGo :: closeEvents c)
    else
      let '(r3, s3, ev3) := selectLoop (sched s) s2 in
      let ev := pre ++ ev1 ++ EGo :: ENewTicker (pingPeriod (this s)) :: ev3 in
      match r3 with
      | Returns err => (Returns (Some err), s3, ev ++ ETickerStop :: closeEvents c)
      | Panics msg => (Panics msg, s3, ev ++ ETickerStop :: closeEvents c)
      | Blocks => (Blocks, s3, ev)
      end
  | Returns (Some err) => (Returns (Some err), set_this s p2, pre ++ ev1 ++ closeEvents c)
  | Panics msg => (Panics msg, set_this s p2, pre ++ ev1 ++ closeEvents c)
  | Blocks => (Blocks, set_this s p2, pre ++ ev1)
  end.
Proof.
  unfold preamble.
  unfold listen. unfold bind at 1. unfold onThis at 1. rewrite connect_eq.
  cbv beta iota zeta.
  unfold defer, bind, get, onThis, SetReadLimit, SetPongHandler, withConn, makeChans,
    go_receiveMessages, NewTicker, emit, ret, panic.
  cbn.
  change (set_conn (set_conn (set_conn (this s) (Some c)) (Some c))
            (Some (set_pongHandler c true)))
    with (set_conn (this s) (Some (set_pongHandler c true))).
  set (p1 := set_conn (this s) (Some (set_pongHandler c true))).
  assert (Hc1 : conn p1 = Some (set_pongHandler c true)) by reflexivity.
  pose proof (subscribe_events p1 _ Hc1 eq_refl) as H.
  destruct (subscribe p1) as [[r1 p2] ev1]. destruct H as (F & D & L & O & N).
  change (set_this (set_this (set_this (set_this s (set_conn (this s) (Some c)))
                                (set_conn (set_conn (this s) (Some c)) (Some c))) p1) p2)
    with (set_this s p2).
  destruct (sameLink_conn _ _ _ L Hc1) as (c2 & Hc2 & Hf2).
  assert (Hcl : closeEvents c2 = closeEvents c)
    by (rewrite (closeEvents_fixed _ _ Hf2); reflexivity).
  destruct r1 as [[err|] | msg |].
  - rewrite (closeConn_eq _ c2) by exact Hc2. rewrite Hcl.
    cbn. norm_events.
  - destruct (pingPeriod (this s) <=? 0) eqn:Hpp.
    + cbn. rewrite (closeConn_eq _ c2) by exact Hc2. rewrite Hcl.
      cbn. norm_events.
    + cbn.
      pose proof (selectLoop_stretch (sched s)
                    (set_pump (set_errorChan (set_this s p2) []) PumpReading)) as HL.
      destruct (selectLoop (sched s) _) as [[r3 s3] ev3]. destruct HL as [A _].
      destruct (sameLink_conn _ _ _ (st_link _ _ _ A) Hc2) as (c3 & Hc3 & Hf3).
      assert (Hcl3 : closeEvents c3 = closeEvents c)
        by (rewrite (closeEvents_fixed _ _ Hf3); exact Hcl).
      destruct r3 as [err | msg |]; cbn.
      * rewrite (closeConn_eq _ c3) by exact Hc3. rewrite Hcl3.
        cbn. norm_events.
      * rewrite (closeConn_eq _ c3) by exact Hc3. rewrite Hcl3.
        cbn. norm_events.
      * norm_events.
  - now elim (N msg).
  - cbn. norm_events.
Qed.

Lemma listen_failed err hresp s :
  listen (DialFailed err hresp) s =
  match hresp with
  | Some h =>
    let failure := errConnectionResponse err (StatusCode h) (Body h) in
    (Returns (Some failure), set_this s (set_conn (this s) None),
     EDial (server (this s)) (2 * Second) :: EBodyReadAll :: bodyCloseEvents h
     ++ [ELog LError "[alpaca] error connecting to server {%s:%v,%s:%v,%s:%s}"
           [AString "server"; AString (server (this s));
            AString "subscription"; AStrings (subscriptions (this s));
            AString "error"; AError failure]])
  | None =>
    (Panics nilDereference, set_this s (set_conn (this s) None),
     [EDial (server (this s)) (2 * Second)])
  end.
Proof.
  unfold listen, bind, onThis. rewrite connect_eq. destruct hresp as [h|]; cbn;
    [norm_events | reflexivity].
Qed.

Lemma streamed_none ev :
  forallb (fun e => match e with EGo => false | _ => true end) ev = true ->
  streamed ev = [].
Proof.
  induction ev as [|e ev IH]; cbn; [reflexivity |].
  intros H. apply andb_prop in H as [He Hev]. destruct e; auto; discriminate.
Qed.

Lemma handshake_no_go ev :
  forallb handshakeEvent ev = true ->
  forallb (fun e => match e with EGo => false | _ => true end) ev = true.
Proof. apply forallb_weaken. now intros []. Qed.

Arguments preamble : simpl never.

Lemma preamble_handshake p hresp : forallb handshakeEvent (preamble p hresp) = true.
Proof. unfold preamble, bodyCloseEvents. now destruct (bodyCloseErr hresp). Qed.

Lemma preamble_deadlines p hresp offset armed :
  deadlines (preamble p hresp) = [] /\ armings offset armed (preamble p hresp) = [].
Proof. unfold preamble, bodyCloseEvents. now destruct (bodyCloseErr hresp). Qed.

Lemma closeEvents_facts c offset armed :
  closes (closeEvents c) = 1%nat
  /\ errorSends (closeEvents c) = 0%nat
  /\ deadlines (closeEvents c) = []
  /\ armings offset armed (closeEvents c) = []
  /\ textPayloads (closeEvents c) = []
  /\ forallb calm (ETickerStop :: closeEvents c) = true
  /\ streamed (closeEvents c) = [].
Proof. unfold closeEvents. now destruct (closeErr c). Qed.

Lemma events_after_go (pre ev1 ev3 tail : list event) (x : event) :
  (pre ++ ev1 ++ EGo :: x :: ev3) ++ tail = (pre ++ ev1) ++ EGo :: (x :: ev3 ++ tail).
Proof. norm_events. Qed.

Lemma events_streaming (pre ev1 ev3 tail : list event) (x : event) :
  (pre ++ ev1 ++ EGo :: x :: ev3) ++ tail = (pre ++ ev1 ++ [EGo; x]) ++ ev3 ++ tail.
Proof. norm_events. Qed.

(** What every path of [listen] keeps after a successful dial. *)
Lemma listen_summary c hresp s :
  let '(r, s1, ev) := listen (Dialed c hresp) s in
  sameLink (set_conn (this s) (Some (set_pongHandler c true))) (this s1)
  /\ closes ev = match r with Blocks => 0%nat | _ => 1%nat end
  /\ deadlines ev = armings (deadlineOffset (this s)) (armNow c) ev
  /\ (pump s = PumpNotStarted ->
      roomForError s1 /\ quietAfterErr ev = true
      /\ (errorSends ev = 0%nat \/ idle (pump s1) = true))
  /\ (pump s = PumpNotStarted -> sending s = None ->
      outputChan (this s1) ++ inFlight s1
      = outputChan (this s) ++ textPayloads (streamed ev)
      /\ (r <> Blocks -> sending s1 = None)).
Proof.
  rewrite listen_dialed. cbv zeta.
  set (p1 := set_conn (this s) (Some (set_pongHandler c true))).
  assert (Hc1 : conn p1 = Some (set_pongHandler c true)) by reflexivity.
  assert (Hon1 : handlerOn p1) by (intros c' Hc'; rewrite Hc1 in Hc'; now injection Hc' as <-).
  pose proof (subscribe_events p1 _ Hc1 eq_refl) as H.
  destruct (subscribe p1) as [[r1 p2] ev1]. destruct H as (F & D & L & O & N).
  change (deadlineOffset p1) with (deadlineOffset (this s)) in D.
  change (armNow (set_pongHandler c true)) with (armNow c) in D.
  change (outputChan p1) with (outputChan (this s)) in O.
  pose proof (handshake_closes _ F) as Fc.
  pose proof (handshake_errorSends _ F) as Fe.
  pose proof (preamble_handshake (this s) hresp) as P.
  pose proof (handshake_closes _ P) as Pc.
  pose proof (handshake_errorSends _ P) as Pe.
  destruct (preamble_deadlines (this s) hresp (deadlineOffset (this s)) (armNow c))
    as [Pd Pa].
  destruct (closeEvents_facts c (deadlineOffset (this s)) (armNow c))
    as (Cc & Ce & Cd & Ca & Ct & Cq & Cs).
  assert (PF : forallb handshakeEvent (preamble (this s) hresp ++ ev1) = true)
    by (now rewrite forallb_app, P, F).
  destruct r1 as [[err|] | msg |].
  - (* the handshake failed *)
    split; [exact L |]. split; [| split; [| split]].
    + count_events.
    + count_events.
    + intros Hp. split; [unfold roomForError; cbn; now rewrite Hp |]. split; [| left].
      * apply quiet_no_send. count_events.
      * count_events.
    + intros Hp Hs. split; [| intros _; exact Hs].
      unfold inFlight. cbn. rewrite Hp, Hs, O. f_equal. cbn.
      rewrite streamed_none; [reflexivity |].
      rewrite app_assoc, forallb_app, (handshake_no_go _ PF).
      unfold closeEvents. now destruct (closeErr c).
  - destruct (pingPeriod (this s) <=? 0) eqn:Hpp.
    + (* the ticker panics *)
      split; [exact L |]. split; [| split; [| split]].
      * count_events.
      * count_events.
      * intros Hp. split; [reflexivity |]. split; [| left].
        -- apply quiet_no_send. count_events.
        -- count_events.
      * intros Hp Hs. split; [| intros _; exact Hs].
        unfold inFlight. cbn. rewrite Hs, O. f_equal. cbn.
        rewrite app_assoc, (handshake_streamed _ _ PF). now rewrite Ct.
    + (* streaming *)
      pose proof (selectLoop_stretch (sched s)
                    (set_pump (set_errorChan (set_this s p2) []) PumpReading)) as HL.
      destruct (selectLoop (sched s) _) as [[r3 s3] ev3]. destruct HL as [A Hs3].
      pose proof (stream_closes _ (st_events _ _ _ A)) as Ac.
      pose proof (st_deadlines _ _ _ A (handlerOn_link _ _ L Hon1) (armNow c)) as Ad.
      cbn [this set_pump set_errorChan set_this] in Ad.
      rewrite (sameLink_offset _ _ L) in Ad.
      change (deadlineOffset p1) with (deadlineOffset (this s)) in Ad.
      assert (R2 : roomForError (set_pump (set_errorChan (set_this s p2) []) PumpReading))
        by reflexivity.
      pose proof (st_room _ _ _ A R2) as R3.
      pose proof (st_quiet _ _ _ A R2) as Q3.
      pose proof (st_sent _ _ _ A R2) as E3.
      pose proof (st_flow _ _ _ A) as W3.
      cbn [this set_pump set_errorChan set_this] in W3.
      assert (Hlink : sameLink p1 (this s3))
        by exact (sameLink_trans _ _ _ L (st_link _ _ _ A)).
      assert (Hpre : errorSends (preamble (this s) hresp ++ ev1
                                 ++ [EGo; ENewTicker (pingPeriod (this s))]) = 0%nat)
        by count_events.
      assert (Hflow : sending s = None ->
                      outputChan (this s3) ++ inFlight s3
                      = outputChan (this s) ++ textPayloads ev3).
      { intros Hs. rewrite W3, O. unfold inFlight. cbn. now rewrite Hs. }
      destruct r3 as [err | msg |].
      * split; [exact Hlink |]. split; [| split; [| split]].
        -- count_events.
        -- count_events.
        -- intros _. split; [exact R3 |]. split.
           ++ rewrite events_streaming, (quiet_app_l _ _ Hpre).
              now apply quiet_app_r.
           ++ destruct E3 as [E3 | E3]; [left | now right]. count_events.
        -- intros _ Hs. split; [| intros _; apply Hs3; discriminate].
           rewrite (Hflow Hs). f_equal.
           rewrite events_after_go, (handshake_streamed _ _ PF).
           count_events.
      * split; [exact Hlink |]. split; [| split; [| split]].
        -- count_events.
        -- count_events.
        -- intros _. split; [exact R3 |]. split.
           ++ rewrite events_streaming, (quiet_app_l _ _ Hpre).
              now apply quiet_app_r.
           ++ destruct E3 as [E3 | E3]; [left | now right]. count_events.
        -- intros _ Hs. split; [| intros _; apply Hs3; discriminate].
           rewrite (Hflow Hs). f_equal.
           rewrite events_after_go, (handshake_streamed _ _ PF).
           count_events.
      * split; [exact Hlink |]. split; [| split; [| split]].
        -- count_events.
        -- count_events.
        -- intros _. split; [exact R3 |]. split.
           ++ rewrite <- (app_nil_r (_ ++ _ ++ EGo :: _)), events_streaming,
                (quiet_app_l _ _ Hpre), app_nil_r.
              exact Q3.
           ++ destruct E3 as [E3 | E3]; [left | now right]. count_events.
        -- intros _ Hs. split; [| congruence].
           rewrite (Hflow Hs). f_equal.
           rewrite app_assoc, (handshake_streamed _ _ PF).
           count_events.
  - now elim (N msg).
  - (* the handshake never returns *)
    split; [exact L |]. split; [| split; [| split]].
    + count_events.
    + count_events.
    + intros Hp. split; [unfold roomForError; cbn; now rewrite Hp |]. split; [| left].
      * apply quiet_no_send. count_events.
      * count_events.
    + intros Hp Hs. split; [| congruence].
      unfold inFlight. cbn. rewrite Hp, Hs, O. f_equal. cbn.
      rewrite streamed_none; [reflexivity |]. exact (handshake_no_go _ PF).
Qed.

(** ** The properties of the running client *)

(** C3 (as the code has it).  From a fresh call of [listen]: the payloads
    sent on [p.outputChan], followed by the payloads read and still held
    (by [listen] in its send, by the goroutine in [out <- pp]), are the
    payloads of the text frames read since the goroutine started, in
    order, each once, unchanged.  When [listen] has returned it holds
    none, so at most the last text frame read is missing from the output;
    none is missing when the goroutine has exited.  A binary frame is
    logged and dropped and the goroutine reads on. *)
Theorem forwarded_text_frames (d : DialOutcome) (p : AlpacaWebSocket) (cs : list choice) :
  (let '(r, s', ev) := listen d (start p cs) in
   outputChan (this s') ++ inFlight s' = outputChan p ++ textPayloads (streamed ev)
   /\ (r <> Blocks -> sending s' = None /\ (List.length (inFlight s') <= 1)%nat)
   /\ (r <> Blocks -> pump s' = PumpExited ->
       outputChan (this s') = outputChan p ++ textPayloads (streamed ev)))
  /\ (forall s c pp rest,
         pump s = PumpReading -> conn (this s) = Some c ->
         incoming c = Frame BinaryMessage pp :: rest ->
         let '(s', ev) := receiveMessages s in
         pump s' = PumpReading
         /\ outputChan (this s') = outputChan (this s)
         /\ inFlight s' = inFlight s
         /\ ev = [EReadFrame BinaryMessage pp;
                  ELog LWarn "[alpaca] received binary message from server" []]).
Proof.
  split.
  - assert (H : let '(r, s', ev) := listen d (start p cs) in
                outputChan (this s') ++ inFlight s'
                = outputChan p ++ textPayloads (streamed ev)
                /\ (r <> Blocks -> sending s' = None)).
    { destruct d as [c hresp | err hresp].
      - pose proof (listen_summary c hresp (start p cs)) as H.
        destruct (listen (Dialed c hresp) (start p cs)) as [[r s'] ev].
        destruct H as (_ & _ & _ & _ & H). exact (H eq_refl eq_refl).
      - rewrite listen_failed. destruct hresp as [h|]; cbn.
        + split; [| reflexivity]. f_equal. rewrite streamed_none; [reflexivity |].
          unfold bodyCloseEvents. now destruct (bodyCloseErr h).
        + split; reflexivity. }
    destruct (listen d (start p cs)) as [[r s'] ev]. destruct H as [Hflow Hs].
    split; [exact Hflow | split].
    + intros Hr. specialize (Hs Hr). split; [exact Hs |].
      unfold inFlight. rewrite Hs. destruct (pump s'); cbn; lia.
    + intros Hr Hp. specialize (Hs Hr). rewrite <- Hflow.
      unfold inFlight. rewrite Hs, Hp. now rewrite app_nil_r.
  - intros s c pp rest Hp Hc Hin. unfold receiveMessages. rewrite Hp.
    rewrite (ReadMessage_eq _ _ Hc), Hin. cbn.
    unfold inFlight. cbn. now rewrite Hp.
Qed.

(** C4.  After a successful dial [listen] closes the connection exactly
    once by the time it returns or panics, whatever the path, and not
    before; the goroutine left behind does not close it.  After a failed
    dial [p.conn] is nil and nothing is closed. *)
Theorem listen_closes_once (d : DialOutcome) (s : State) :
  let '(r, s', ev) := listen d s in
  match d with
  | Dialed _ _ =>
    closes ev = match r with Blocks => 0%nat | _ => 1%nat end
    /\ closes (snd (afterReturn (sched s') s')) = 0%nat
  | DialFailed _ _ => conn (this s') = None /\ closes ev = 0%nat
  end.
Proof.
  destruct d as [c hresp | err hresp].
  - pose proof (listen_summary c hresp s) as H.
    destruct (listen (Dialed c hresp) s) as [[r s'] ev].
    destruct H as (_ & H & _). split; [exact H |].
    pose proof (afterReturn_stretch (sched s') s') as A.
    destruct (afterReturn (sched s') s') as [s2 ev2]. destruct A as [A _].
    exact (stream_closes _ (st_events _ _ _ A)).
  - rewrite listen_failed. destruct hresp as [h|]; cbn; [| split; reflexivity].
    split; [reflexivity |]. unfold bodyCloseEvents. now destruct (bodyCloseErr h).
Qed.

(** C5.  In a whole run after a successful dial the deadlines set on the
    connection are, in order, one for each pong received, at the reading
    of the clock in its handler plus [(pingPeriod * 6) / 5], and one for
    the completion of the handshake, at the reading of the clock there
    plus the same offset; nothing else sets a deadline.  When both exchanges succeed [subscribe] ends by setting
    that deadline; a read that meets a pong sets it from the handler; for
    the client that [NewAlpacaWebSocket] builds the offset is twelve
    seconds. *)
Theorem read_deadline_arming (d : DialOutcome) (s : State) :
  (let '(r, s', ev) := run d s in
   match d with
   | Dialed c _ =>
     deadlines ev
     = armings (Z.quot (wrap64 (pingPeriod (this s) * 6)) 5) (armNow c) ev
   | DialFailed _ _ =>
     forall armed,
       deadlines ev
       = armings (Z.quot (wrap64 (pingPeriod (this s) * 6)) 5) armed ev
   end)
  /\ (forall p resp1 p1 ev1 resp2 p2 ev2 c2,
         exchangeMessage (authMsg p) (lit "'authenticated'") p
         = (Returns (resp1, None), p1, ev1) ->
         exchangeMessage (subMsg p) "streams" p1 = (Returns (resp2, None), p2, ev2) ->
         conn p2 = Some c2 ->
         exists ev,
           subscribe p
           = (Returns (armErr c2), p2,
              ev ++ [ESetReadDeadline
                       (armNow c2 + Z.quot (wrap64 (pingPeriod p * 6)) 5)]))
  /\ (forall p c now res rest,
         conn p = Some c -> pongHandler c = true ->
         incoming c = Pong now res :: rest ->
         exists r p' ev,
           ReadMessage p
           = (r, p', EPong now
                     :: ESetReadDeadline (now + Z.quot (wrap64 (pingPeriod p * 6)) 5)
                     :: ev))
  /\ (forall cfg oChan, deadlineOffset (NewAlpacaWebSocket cfg oChan) = 12 * Second).
Proof.
  split; [| split; [| split]].
  - unfold run. destruct d as [c hresp | err hresp].
    + pose proof (listen_summary c hresp s) as H.
      destruct (listen (Dialed c hresp) s) as [[r s1] ev1].
      destruct H as (L & _ & D & _).
      pose proof (afterReturn_stretch (sched s1) s1) as A.
      destruct (afterReturn (sched s1) s1) as [s2 ev2]. destruct A as [A _].
      assert (Hon : handlerOn (this s1)).
      { apply (handlerOn_link _ _ L). intros c' Hc'. cbn in Hc'. now injection Hc' as <-. }
      pose proof (st_deadlines _ _ _ A Hon (armNow c)) as D2.
      rewrite (sameLink_offset _ _ L) in D2.
      change (Z.quot (wrap64 (pingPeriod (this s) * 6)) 5) with (deadlineOffset (this s)).
      rewrite deadlines_app, armings_app, D, D2. reflexivity.
    + assert (H : let '(r, s1, ev1) := listen (DialFailed err hresp) s in
                  conn (this s1) = None /\ pingPeriod (this s1) = pingPeriod (this s)
                  /\ forall armed,
                      deadlines ev1 = armings (deadlineOffset (this s)) armed ev1).
      { rewrite listen_failed. destruct hresp as [h|]; cbn; [| now repeat split].
        repeat split. unfold bodyCloseEvents. now destruct (bodyCloseErr h). }
      destruct (listen (DialFailed err hresp) s) as [[r s1] ev1].
      destruct H as (Hc & Hpp & D).
      pose proof (afterReturn_stretch (sched s1) s1) as A.
      destruct (afterReturn (sched s1) s1) as [s2 ev2]. destruct A as [A _].
      assert (Hon : handlerOn (this s1)) by (intros c' Hc'; congruence).
      intros armed. pose proof (st_deadlines _ _ _ A Hon armed) as D2.
      change (Z.quot (wrap64 (pingPeriod (this s) * 6)) 5) with (deadlineOffset (this s)).
      assert (Hoff : deadlineOffset (this s1) = deadlineOffset (this s))
        by (unfold deadlineOffset; now rewrite Hpp).
      rewrite Hoff in D2.
      rewrite deadlines_app, armings_app, (D armed), D2. reflexivity.
  - intros p resp1 p1 ev1 resp2 p2 ev2 c2 E1 E2 Hc2.
    assert (Hpp : deadlineOffset p2 = deadlineOffset p).
    { destruct (conn p) as [c|] eqn:Hc;
        [| rewrite (exchangeMessage_nil _ _ _ Hc) in E1; discriminate].
      pose proof (exchangeMessage_events (authMsg p) (lit "'authenticated'") p c Hc) as H1.
      rewrite E1 in H1. destruct H1 as (_ & _ & L1 & _).
      destruct (sameLink_conn _ _ _ L1 Hc) as (c1 & Hc1 & _).
      pose proof (exchangeMessage_events (subMsg p) "streams" p1 c1 Hc1) as H2.
      rewrite E2 in H2. destruct H2 as (_ & _ & L2 & _).
      now rewrite (sameLink_offset _ _ L2), (sameLink_offset _ _ L1). }
    change (Z.quot (wrap64 (pingPeriod p * 6)) 5) with (deadlineOffset p).
    rewrite <- Hpp.
    rewrite subscribe_eq, E1, E2, Hc2.
    exists ((logAuthMsg p :: ev1
             ++ ELog LInfo "[alpaca] authenticated successfully" [] :: ev2)
            ++ [logSubscribed p]).
    rewrite <- app_assoc. reflexivity.
  - intros p c now res rest Hc Hh Hin.
    rewrite (ReadMessage_eq _ _ Hc), Hin, Hh. cbn.
    destruct res as [e|]; [now do 3 eexists |].
    destruct (nextMessage _ rest) as [[r l] ev]. now do 3 eexists.
  - reflexivity.
Qed.

(** C6.  In a whole run from a fresh call of [listen], under every
    schedule: at most one value is sent on [errorChan]; after that send
    the goroutine of [receiveMessages] neither reads nor sends; and the
    goroutine is never left waiting in [errorChan <- err], because the
    buffer is empty for as long as the goroutine runs, also when [listen]
    has returned before the read error.  From any such state a failed
    read puts the error in the buffer and ends the goroutine in the same
    turn, whatever [listen] is doing. *)
Theorem errorChan_single_deposit (d : DialOutcome) (p : AlpacaWebSocket) (cs : list choice) :
  (let '(r, s', ev) := run d (start p cs) in
   (errorSends ev <= 1)%nat
   /\ (forall a err b, ev = a ++ EErrorChan err :: b -> forallb calm b = true)
   /\ (forall err, pump s' <> PumpSendingErr err)
   /\ roomForError s')
  /\ (forall s c err rest,
         roomForError s -> pump s = PumpReading -> conn (this s) = Some c ->
         incoming c = Fail err :: rest ->
         let '(s', ev) := receiveMessages s in
         pump s' = PumpExited
         /\ errorChan s' = [err]
         /\ ev = [EReadErr err;
                  ELog LError "[alpaca] error during reading {%s:%s}"
                    [AString "error"; AError err];
                  EErrorChan err]).
Proof.
  split.
  - assert (H : let '(r, s', ev) := run d (start p cs) in
                quietAfterErr ev = true /\ roomForError s').
    { unfold run.
      assert (H : let '(r, s1, ev1) := listen d (start p cs) in
                  roomForError s1 /\ quietAfterErr ev1 = true
                  /\ (errorSends ev1 = 0%nat \/ idle (pump s1) = true)).
      { destruct d as [c hresp | err hresp].
        - pose proof (listen_summary c hresp (start p cs)) as H.
          destruct (listen (Dialed c hresp) (start p cs)) as [[r s1] ev1].
          destruct H as (_ & _ & _ & H & _). exact (H eq_refl).
        - rewrite listen_failed. destruct hresp as [h|]; cbn.
          + split; [exact I |]. unfold bodyCloseEvents.
            destruct (bodyCloseErr h); split; try reflexivity; now left.
          + split; [exact I |]. split; [reflexivity | now left]. }
      destruct (listen d (start p cs)) as [[r s1] ev1]. destruct H as (R1 & Q1 & E1).
      pose proof (afterReturn_stretch (sched s1) s1) as A.
      destruct (afterReturn (sched s1) s1) as [s2 ev2]. destruct A as [A _].
      split.
      - destruct E1 as [E1 | E1].
        + rewrite (quiet_app_l _ _ E1). exact (st_quiet _ _ _ A R1).
        + apply quiet_app_r; [exact Q1 | exact (proj1 (st_idle _ _ _ A E1))].
      - exact (st_room _ _ _ A R1). }
    destruct (run d (start p cs)) as [[r s'] ev]. destruct H as [Q R].
    split; [now apply quiet_once | split; [| split; [| exact R]]].
    + intros a err b E. exact (quiet_decompose _ _ _ _ Q E).
    + intros err E. unfold roomForError in R. now rewrite E in R.
  - intros s c err rest R Hp Hc Hin. unfold receiveMessages. rewrite Hp.
    rewrite (ReadMessage_eq _ _ Hc), Hin. cbn.
    unfold roomForError in R. rewrite Hp in R.
    unfold sendErr. cbn. rewrite R. cbn. now repeat split.
Qed.


(** ** More properties of the client *)

Lemma count_app f (a b : list event) : count f (a ++ b) = (count f a + count f b)%nat.
Proof. apply filter_length_app. Qed.

Lemma handshake_count f ev :
  (forall e, handshakeEvent e = true -> f e = false) ->
  forallb handshakeEvent ev = true -> count f ev = 0%nat.
Proof. apply no_count. Qed.

Lemma stream_count f ev :
  (forall e, streamEvent e = true -> f e = false) ->
  forallb streamEvent ev = true -> count f ev = 0%nat.
Proof. apply no_count. Qed.

Lemma closeEvents_count f c :
  (forall lv format args, f (ELog lv format args) = false) ->
  count f (closeEvents c) = if f EClose then 1%nat else 0%nat.
Proof.
  intros H. unfold closeEvents, count. cbn.
  destruct (closeErr c); cbn; rewrite ?H; now destruct (f EClose).
Qed.

(** X1.  When [listen] returns, it returns an error: no path returns
    nil. *)
Theorem listen_returns_error (d : DialOutcome) (s : State) :
  let '(r, s', ev) := listen d s in r <> Returns None.
Proof.
  destruct d as [c hresp | err hresp].
  - rewrite listen_dialed. cbv zeta.
    destruct (subscribe _) as [[[[e|] | msg |] p2] ev1]; try discriminate.
    destruct (pingPeriod (this s) <=? 0); [discriminate |].
    destruct (selectLoop _ _) as [[[e | msg |] s3] ev3]; discriminate.
  - rewrite listen_failed. destruct hresp; discriminate.
Qed.

(** X2.  A ticker that [listen] created is stopped by the time [listen]
    returns or panics; at most one is created, and none is stopped that
    was not created. *)
Theorem listen_stops_ticker (d : DialOutcome) (s : State) :
  let '(r, s', ev) := listen d s in
  (count isTickerStop ev <= count isNewTicker ev)%nat
  /\ (count isNewTicker ev <= 1)%nat
  /\ (r <> Blocks -> count isTickerStop ev = count isNewTicker ev).
Proof.
  destruct d as [c hresp | err hresp].
  - rewrite listen_dialed. cbv zeta.
    set (p1 := set_conn (this s) (Some (set_pongHandler c true))).
    assert (Hc1 : conn p1 = Some (set_pongHandler c true)) by reflexivity.
    pose proof (subscribe_events p1 _ Hc1 eq_refl) as H.
    destruct (subscribe p1) as [[r1 p2] ev1]. destruct H as (F & _ & _ & _ & N).
    pose proof (preamble_handshake (this s) hresp) as P.
    assert (T1 : count isNewTicker ev1 = 0%nat) by (apply handshake_count; [now intros [] | exact F]).
    assert (S1 : count isTickerStop ev1 = 0%nat) by (apply handshake_count; [now intros [] | exact F]).
    assert (T0 : count isNewTicker (preamble (this s) hresp) = 0%nat)
      by (apply handshake_count; [now intros [] | exact P]).
    assert (S0 : count isTickerStop (preamble (this s) hresp) = 0%nat)
      by (apply handshake_count; [now intros [] | exact P]).
    assert (TC : count isNewTicker (closeEvents c) = 0%nat) by now rewrite closeEvents_count.
    assert (SC : count isTickerStop (closeEvents c) = 0%nat) by now rewrite closeEvents_count.
    destruct r1 as [[e|] | msg |].
    + rewrite !count_app, T0, T1, TC, S0, S1, SC. cbn. repeat split; lia.
    + destruct (pingPeriod (this s) <=? 0).
      * rewrite !count_app, T0, T1, S0, S1.
        change (EGo :: closeEvents c) with ([EGo] ++ closeEvents c).
        rewrite !count_app, TC, SC. cbn. repeat split; lia.
      * pose proof (selectLoop_stretch (sched s)
                      (set_pump (set_errorChan (set_this s p2) []) PumpReading)) as HL.
        destruct (selectLoop (sched s) _) as [[r3 s3] ev3]. destruct HL as [A _].
        assert (T3 : count isNewTicker ev3 = 0%nat)
          by (apply stream_count; [now intros [] | exact (st_events _ _ _ A)]).
        assert (S3 : count isTickerStop ev3 = 0%nat)
          by (apply stream_count; [now intros [] | exact (st_events _ _ _ A)]).
        change (EGo :: ENewTicker (pingPeriod (this s)) :: ev3)
          with ([EGo; ENewTicker (pingPeriod (this s))] ++ ev3).
        change (ETickerStop :: closeEvents c) with ([ETickerStop] ++ closeEvents c).
        destruct r3 as [e | msg |];
          rewrite !count_app, T0, T1, S0, S1, T3, S3, ?TC, ?SC; cbn;
          repeat split; try lia; congruence.
    + now elim (N msg).
    + rewrite !count_app, T0, T1, S0, S1. cbn. repeat split; try lia; congruence.
  - rewrite listen_failed.
    destruct hresp as [h|]; cbn; [| repeat split; lia].
    unfold bodyCloseEvents, count. destruct (bodyCloseErr h); cbn; repeat split; lia.
Qed.

Lemma sameLink_live p p' : sameLink p p' -> conn p <> None -> conn p' <> None.
Proof.
  intros L H. destruct (conn p) as [c|] eqn:Hc; [| congruence].
  destruct (sameLink_conn _ _ _ L Hc) as (c' & Hc' & _). congruence.
Qed.

Lemma selectLoop_no_panic cs :
  forall s msg, conn (this s) <> None -> fst (fst (selectLoop cs s)) <> Panics msg.
Proof.
  induction cs as [|c rest IH]; intros s msg Hc; unfold selectLoop; fold selectLoop.
  - discriminate.
  - destruct c as [| | now res | |].
    + pose proof (receiveMessages_stretch s) as H.
      destruct (receiveMessages s) as [s1 ev1]. destruct H as [A _].
      specialize (IH s1 msg (sameLink_live _ _ (st_link _ _ _ A) Hc)).
      destruct (selectLoop rest s1) as [[r s2] ev2]. exact IH.
    + destruct (sending s); [now apply IH |].
      destruct (errorChan s); [now apply IH | discriminate].
    + destruct (sending s); [now apply IH |].
      unfold WriteControlPing, withConn. destruct (conn (this s)) as [c|] eqn:E; [| congruence].
      destruct res as [err|]; [discriminate |].
      assert (H : conn (this (set_this s (set_conn (this s) (Some c)))) <> None) by discriminate.
      specialize (IH _ msg H).
      destruct (selectLoop rest _) as [[r s2] ev2]. exact IH.
    + destruct (sending s); [now apply IH |].
      destruct (pump s); try now apply IH.
      assert (H : conn (this (set_sending (set_pump s PumpReading) (Some pp))) <> None)
        by exact Hc.
      specialize (IH _ msg H).
      destruct (selectLoop rest _) as [[r s2] ev2]. exact IH.
    + destruct (sending s); [| now apply IH].
      apply IH. exact Hc.
Qed.

(** X3.  After a successful dial, with a positive ping period, [listen]
    does not panic, whatever arrives and whatever the schedule: it
    dereferences no nil connection and the ticker accepts its period. *)
Theorem listen_does_not_panic (c : Conn) (hresp : Response) (s : State) (msg : string) :
  0 < pingPeriod (this s) ->
  fst (fst (listen (Dialed c hresp) s)) <> Panics msg.
Proof.
  intros Hpp. rewrite listen_dialed. cbv zeta.
  set (p1 := set_conn (this s) (Some (set_pongHandler c true))).
  assert (Hc1 : conn p1 = Some (set_pongHandler c true)) by reflexivity.
  pose proof (subscribe_events p1 _ Hc1 eq_refl) as H.
  destruct (subscribe p1) as [[r1 p2] ev1]. destruct H as (_ & _ & L & _ & N).
  destruct r1 as [[e|] | m |]; try discriminate.
  - destruct (Z.leb_spec (pingPeriod (this s)) 0) as [Hle | _]; [lia |].
    assert (Hlive : conn (this (set_pump (set_errorChan (set_this s p2) []) PumpReading))
                    <> None).
    { cbn. apply (sameLink_live _ _ L). discriminate. }
    pose proof (selectLoop_no_panic (sched s) _ msg Hlive) as HP.
    destruct (selectLoop (sched s) _) as [[[e | m |] s3] ev3]; cbn in *; congruence.
  - now elim (N m).
Qed.

(** X4.  [connect] leaves in [p.conn] what the dial returned, also when
    it panics, and never closes a connection.  When the dial gave a
    response, the body is closed exactly once, it is read exactly when the
    dial failed, and [connect] returns nil exactly when the dial
    succeeded; without a response it panics and closes nothing. *)
Theorem connect_releases_body (d : DialOutcome) (p : AlpacaWebSocket) :
  let '(r, p', ev) := connect d p in
  conn p' = dial_conn d
  /\ closes ev = 0%nat
  /\ match dial_hresp d with
     | Some _ =>
       count isBodyClose ev = 1%nat
       /\ count isBodyReadAll ev = match dial_err d with Some _ => 1%nat | None => 0%nat end
       /\ (r = Returns None <-> dial_err d = None)
       /\ (forall msg, r <> Panics msg)
     | None => count isBodyClose ev = 0%nat /\ r = Panics nilDereference
     end.
Proof.
  rewrite connect_eq.
  destruct d as [c hresp | err [hresp|]]; cbn; unfold bodyCloseEvents, count, closes.
  - destruct (bodyCloseErr hresp); cbn; repeat split; congruence.
  - destruct (bodyCloseErr hresp); cbn; repeat split; congruence.
  - repeat split.
Qed.

Lemma receiveMessages_output s :
  let '(s', ev) := receiveMessages s in
  outputChan (this s') = outputChan (this s)
  /\ (forall pp, pump s = PumpSendingOut pp -> s' = s /\ ev = []).
Proof.
  unfold receiveMessages. destruct (pump s) eqn:Hp; try (split; [reflexivity | congruence]).
  - unfold ReadMessage. destruct (conn (this s)) as [c|].
    + destruct (nextMessage _ (incoming c)) as [[[[[|] pp | err] | msg |] l] ev];
        cbn; try (split; [reflexivity | congruence]).
      unfold sendErr.
      match goal with |- context [if ?b then _ else _] => destruct b end;
        cbn; (split; [reflexivity | congruence]).
    + split; [reflexivity | congruence].
  - split; [reflexivity |]. intros pp' _. now split.
  - unfold sendErr. destruct (List.length (errorChan s) <? errorChanCap)%nat;
      (split; [reflexivity | congruence]).
Qed.

Lemma afterReturn_output cs :
  forall s,
    let '(s', ev) := afterReturn cs s in
    outputChan (this s') = outputChan (this s)
    /\ (forall pp, pump s = PumpSendingOut pp -> s' = s /\ ev = []).
Proof.
  induction cs as [|c rest IH]; intros s; cbn [afterReturn].
  - split; [reflexivity |]. now split.
  - destruct c; try apply IH.
    pose proof (receiveMessages_output s) as H.
    destruct (receiveMessages s) as [s1 ev1]. destruct H as [O1 B1].
    specialize (IH s1). destruct (afterReturn rest s1) as [s2 ev2]. destruct IH as [O2 B2].
    split; [congruence |].
    intros pp Hp. destruct (B1 pp Hp) as [-> ->].
    destruct (B2 pp Hp) as [-> ->]. now split.
Qed.

(** X5.  Once [listen] has returned nothing more is sent on
    [p.outputChan]; a payload that the goroutine of [receiveMessages] was
    offering on [out] at that moment is never taken: the goroutine stays
    in [out <- pp] for ever and does nothing else. *)
Theorem nothing_forwarded_after_return (d : DialOutcome) (s : State) :
  let '(r, s1, ev1) := listen d s in
  let '(r', s2, ev) := run d s in
  r' = r
  /\ outputChan (this s2) = outputChan (this s1)
  /\ (forall pp, pump s1 = PumpSendingOut pp -> pump s2 = PumpSendingOut pp /\ ev = ev1).
Proof.
  unfold run. destruct (listen d s) as [[r s1] ev1].
  pose proof (afterReturn_output (sched s1) s1) as H.
  destruct (afterReturn (sched s1) s1) as [s2 ev2]. destruct H as [O B].
  split; [reflexivity |]. split; [exact O |].
  intros pp Hp. destruct (B pp Hp) as [-> ->]. cbn. split; [exact Hp | apply app_nil_r].
Qed.

(** X6.  The key and the secret are put into the authentication request
    as they are, without escaping: a key that holds the text between the
    two fields gives the same request as a shorter key with a longer
    secret. *)
Theorem authMsg_not_escaped (p q : AlpacaWebSocket) (x : string) :
  apiKey p = apiKey q +++ secretSeparator +++ x ->
  apiSecret q = x +++ secretSeparator +++ apiSecret p ->
  authMsg p = authMsg q /\ apiKey p <> apiKey q.
Proof.
  intros Hk Hs. split.
  - unfold authMsg. rewrite Hk, Hs. fold secretSeparator.
    now rewrite !append_assoc.
  - rewrite Hk. intros E. apply (f_equal String.length) in E.
    rewrite !length_append in E.
    assert (L : String.length secretSeparator = 14%nat) by reflexivity. lia.
Qed.

Lemma wrap64_small z : - 2 ^ 63 <= z < 2 ^ 63 -> wrap64 z = z.
Proof. intros H. unfold wrap64. rewrite Z.mod_small; lia. Qed.

(** X7.  For a ping period that is not negative and whose sixfold fits in
    64 bits, the offset of the read deadline is [pingPeriod * 6 / 5]
    rounded down: it is not shorter than the ping period and exceeds it by
    a fifth. *)
Theorem deadlineOffset_margin (p : AlpacaWebSocket) :
  0 <= pingPeriod p -> pingPeriod p * 6 < 2 ^ 63 ->
  deadlineOffset p = pingPeriod p * 6 / 5
  /\ pingPeriod p <= deadlineOffset p
  /\ 5 * deadlineOffset p <= 6 * pingPeriod p < 5 * deadlineOffset p + 5.
Proof.
  intros H0 H1. unfold deadlineOffset.
  rewrite wrap64_small by lia. rewrite Z.quot_div_nonneg by lia.
  pose proof (Z.div_mod (pingPeriod p * 6) 5 ltac:(lia)) as D.
  pose proof (Z.mod_pos_bound (pingPeriod p * 6) 5 ltac:(lia)) as B.
  repeat split; lia.
Qed.

(** X8.  For a ping period whose sixfold does not fit in a signed 64-bit
    duration the product wraps around: the offset is not positive, so the
    deadline that [setReadDeadline] sets is not after the reading of the
    clock. *)
Theorem deadlineOffset_overflow (p : AlpacaWebSocket) :
  2 ^ 63 <= pingPeriod p * 6 < 2 ^ 64 ->
  deadlineOffset p = Z.quot (pingPeriod p * 6 - 2 ^ 64) 5
  /\ deadlineOffset p <= 0.
Proof.
  intros H. unfold deadlineOffset.
  assert (W : wrap64 (pingPeriod p * 6) = pingPeriod p * 6 - 2 ^ 64).
  { unfold wrap64.
    replace (pingPeriod p * 6 + 2 ^ 63)
      with ((pingPeriod p * 6 - 2 ^ 63) + 1 * 2 ^ 64) by lia.
    rewrite Z.mod_add by lia. rewrite Z.mod_small; lia. }
  rewrite W. split; [reflexivity |].
  apply Z.quot_le_upper_bound; lia.
Qed.

(** X9.  On a client that holds no connection [subscribe] panics on its
    first write, after the authentication request has been logged. *)
Theorem subscribe_without_connection (p : AlpacaWebSocket) :
  conn p = None -> subscribe p = (Panics nilDereference, p, [logAuthMsg p]).
Proof.
  intros Hc. rewrite subscribe_eq, (exchangeMessage_nil _ _ _ Hc). reflexivity.
Qed.

(** *** Topics that need no escaping *)

Lemma charOf_byteOf (c : ascii) : charOf (byteOf c) = c.
Proof. unfold charOf, byteOf. rewrite N2Z.id. apply ascii_N_embedding. Qed.

Lemma plainByte_range (c : ascii) :
  plainByte c = true ->
  0x21 <= byteOf c <= 0x7E /\ byteOf c <> 34 /\ byteOf c <> 92.
Proof.
  unfold plainByte. cbv zeta. intros H.
  apply andb_prop in H as [H H4]. apply andb_prop in H as [H H3].
  apply andb_prop in H as [H1 H2].
  apply negb_true_iff in H3, H4. lia.
Qed.

Lemma IsPrint_ascii (b : Z) : 0x20 <= b <= 0x7E -> IsPrint b = true.
Proof.
  intros H. unfold IsPrint.
  destruct (Z.leb_spec b 0xFF); [| lia].
  destruct (Z.leb_spec 0x20 b); [| lia].
  destruct (Z.leb_spec b 0x7E); [reflexivity | lia].
Qed.

Lemma AppendRune_ascii (b : Z) : 0 <= b <= 0x7F -> AppendRune b = str1 b.
Proof.
  intros H. unfold AppendRune, ValidRune.
  destruct (Z.leb_spec 0 b); [| lia].
  destruct (Z.ltb_spec b 0xD800); [| lia].
  cbn [andb orb]. cbv zeta.
  destruct (Z.leb_spec b 0x7F); [reflexivity | lia].
Qed.

Lemma appendEscapedRune_plain (c : ascii) :
  plainByte c = true -> appendEscapedRune (byteOf c) = String c EmptyString.
Proof.
  intros H. apply plainByte_range in H as (R & Q & B).
  unfold appendEscapedRune.
  destruct (Z.eqb_spec (byteOf c) 34); [lia |].
  destruct (Z.eqb_spec (byteOf c) 92); [lia |].
  cbn [orb]. rewrite IsPrint_ascii, AppendRune_ascii by lia.
  unfold str1. now rewrite charOf_byteOf.
Qed.

Lemma quoteRunes_plain (n : nat) :
  forall t, plainTopic t = true -> (String.length t <= n)%nat -> quoteRunes n t = t.
Proof.
  induction n as [|n IH]; intros [|c t] Hp Hn; cbn in Hn; try reflexivity; [lia |].
  unfold plainTopic in Hp. cbn in Hp. apply andb_prop in Hp as [Hc Ht].
  pose proof (plainByte_range c Hc) as (R & _ & _).
  unfold quoteRunes; fold quoteRunes. unfold DecodeRuneInString.
  destruct (Z.ltb_spec (byteOf c) 0x80) as [_ | ?]; [| lia].
  destruct (Z.eqb_spec (byteOf c) RuneError) as [E | _]; [unfold RuneError in E; lia |].
  rewrite andb_false_r, (appendEscapedRune_plain c Hc). cbn.
  rewrite IH; [reflexivity | exact Ht | lia].
Qed.

Lemma Quote_plain (t : string) : plainTopic t = true -> Quote t = inQuotes t.
Proof.
  intros H. unfold Quote, inQuotes. now rewrite quoteRunes_plain.
Qed.

Lemma inQuotes_no_space (t : string) :
  plainTopic t = true -> ~ In " "%char (list_ascii_of_string (inQuotes t)).
Proof.
  intros H. unfold inQuotes. cbn. intros [E | Hin]; [discriminate |].
  revert H Hin. unfold plainTopic. induction t as [|c t IH]; cbn; intros H Hin.
  - destruct Hin as [E | []]. discriminate.
  - apply andb_prop in H as [Hc Ht]. destruct Hin as [E | Hin]; [| now apply IH].
    subst c. discriminate.
Qed.

(** X10.  When every topic is made of printable ASCII other than the
    space, the double quote and the backslash, the subscription request is
    the template with the topics between double quotes, separated by
    commas, in the order of the list; with no topic the array is empty. *)
Theorem subMsg_plain_topics (p : AlpacaWebSocket) :
  forallb plainTopic (subscriptions p) = true ->
  subMsg p
  = lit "{'action': 'listen', 'data': {'streams': "
    +++ "[" +++ Join (map inQuotes (subscriptions p)) "," +++ "]" +++ "}}".
Proof.
  intros H. rewrite forallb_forall in H.
  rewrite subMsg_comma_joined.
  - rewrite (map_ext_in Quote inQuotes); [reflexivity |].
    intros t Ht. apply Quote_plain, H, Ht.
  - apply Forall_forall. intros t Ht. rewrite (Quote_plain t (H t Ht)).
    apply inQuotes_no_space, H, Ht.
Qed.

(** *** The order of the handshake *)

Lemma awaitResponse_writes p b expect l :
  writesOf (snd (awaitResponse (handlePong p b) expect l)) = [].
Proof.
  unfold writesOf.
  induction l as [|[now res | mt pp | err] l IH]; cbn; try reflexivity.
  - unfold handlePong at 1. destruct b; [destruct res as [e|] |]; try reflexivity;
      destruct (awaitResponse _ expect l) as [[r l'] ev]; exact IH.
  - destruct (Contains pp expect); [reflexivity |].
    destruct (awaitResponse _ expect l) as [[r l'] ev]. exact IH.
Qed.

Lemma exchangeMessage_writes send expect p c :
  conn p = Some c -> writesOf (snd (exchangeMessage send expect p)) = [send].
Proof.
  intros Hc. rewrite (exchangeMessage_eq _ _ _ _ Hc). cbn zeta.
  destruct (hd None (writes c)); [reflexivity |].
  pose proof (awaitResponse_writes p (pongHandler c) expect (incoming c)) as H.
  destruct (awaitResponse _ expect (incoming c)) as [[r l] ev]. cbn in *.
  unfold writesOf in *. cbn. now rewrite H.
Qed.

Lemma exchangeMessage_accepted send expect p c resp p' ev :
  conn p = Some c ->
  exchangeMessage send expect p = (Returns (resp, None), p', ev) ->
  hd None (writes c) = None
  /\ Contains resp expect = true
  /\ exists mt, In (Frame mt resp) (incoming c).
Proof.
  intros Hc H. rewrite (exchangeMessage_eq _ _ _ _ Hc) in H. cbn zeta in H.
  destruct (hd None (writes c)); [discriminate |]. split; [reflexivity |].
  destruct (awaitResponse _ expect (incoming c)) as [[r l] ev0] eqn:E.
  injection H as -> _ _. exact (awaitResponse_success _ _ _ _ _ _ E).
Qed.

Lemma writesOf_app a b : writesOf (a ++ b) = writesOf a ++ writesOf b.
Proof. apply flat_map_app. Qed.

(** X11.  On a live connection [subscribe] writes the authentication
    request first and at most one more message, the subscription request;
    the subscription request is written only after the write of the
    authentication request succeeded and a response holding the marker
    ["authenticated"] was read. *)
Theorem subscribe_write_order (p : AlpacaWebSocket) (c : Conn) :
  conn p = Some c ->
  let '(r, p', ev) := subscribe p in
  (writesOf ev = [authMsg p] \/ writesOf ev = [authMsg p; subMsg p])
  /\ (writesOf ev = [authMsg p; subMsg p] ->
      hd None (writes c) = None
      /\ exists mt resp,
        In (Frame mt resp) (incoming c)
        /\ Contains resp (lit "'authenticated'") = true).
Proof.
  intros Hc. rewrite subscribe_eq.
  pose proof (exchangeMessage_writes (authMsg p) (lit "'authenticated'") p c Hc) as W1.
  pose proof (exchangeMessage_events (authMsg p) (lit "'authenticated'") p c Hc) as E1.
  pose proof (exchangeMessage_accepted (authMsg p) (lit "'authenticated'") p c) as A1.
  destruct (exchangeMessage (authMsg p) (lit "'authenticated'") p)
    as [[[[resp [e|]]|msg|] p1] ev1]; cbn [snd] in W1; destruct E1 as (_ & _ & L1 & _ & N1).
  - assert (W : writesOf (logAuthMsg p :: ev1 ++ [logAuthFailure resp e]) = [authMsg p]).
    { change (writesOf (logAuthMsg p :: ev1 ++ [logAuthFailure resp e]))
        with (writesOf (ev1 ++ [logAuthFailure resp e])).
      rewrite writesOf_app, W1. reflexivity. }
    rewrite W. split; [now left | discriminate].
  - destruct (A1 resp p1 ev1 Hc eq_refl) as (Hw & Hm & mt & Hin).
    destruct (sameLink_conn _ _ _ L1 Hc) as (c1 & Hc1 & _).
    pose proof (exchangeMessage_writes (subMsg p) "streams" p1 c1 Hc1) as W2.
    pose proof (exchangeMessage_events (subMsg p) "streams" p1 c1 Hc1) as E2.
    assert (Hgood : hd None (writes c) = None
                    /\ exists mt resp,
                      In (Frame mt resp) (incoming c)
                      /\ Contains resp (lit "'authenticated'") = true) by eauto.
    assert (W : writesOf (logAuthMsg p :: ev1
                          ++ ELog LInfo "[alpaca] authenticated successfully" []
                          :: snd (exchangeMessage (subMsg p) "streams" p1))
                = [authMsg p; subMsg p]).
    { change (writesOf (logAuthMsg p :: ?l)) with (writesOf l).
      rewrite writesOf_app, W1.
      change (writesOf (ELog LInfo "[alpaca] authenticated successfully" [] :: ?l))
        with (writesOf l).
      rewrite W2. reflexivity. }
    clear W2.
    destruct (exchangeMessage (subMsg p) "streams" p1)
      as [[[[resp2 [e|]]|msg|] p2] ev2]; cbn [snd] in W; destruct E2 as (_ & _ & L2 & _ & N2);
      cbv beta iota zeta.
    + rewrite writesOf_app, W. split; [now right | intros _; exact Hgood].
    + destruct (sameLink_conn _ _ _ L2 Hc1) as (c2 & Hc2 & _). rewrite Hc2.
      rewrite writesOf_app, W. split; [now right | intros _; exact Hgood].
    + now elim (N2 msg).
    + rewrite W. split; [now right | intros _; exact Hgood].
  - now elim (N1 msg).
  - change (writesOf (logAuthMsg p :: ev1)) with (writesOf ev1). rewrite W1.
    split; [now left | discriminate].
Qed.

(** *** The start of the goroutine *)

Lemma subscribe_success_shape p p2 ev :
  subscribe p = (Returns None, p2, ev) ->
  exists ev0 t, ev = ev0 ++ [logSubscribed p; ESetReadDeadline t].
Proof.
  rewrite subscribe_eq.
  destruct (exchangeMessage (authMsg p) (lit "'authenticated'") p)
    as [[[[resp [e|]]|msg|] p1] ev1]; try discriminate.
  destruct (exchangeMessage (subMsg p) "streams" p1)
    as [[[[resp2 [e|]]|msg|] q] ev2]; cbv beta iota zeta; try discriminate.
  destruct (conn q) as [c2|]; [| discriminate].
  intros H. injection H as _ _ <-.
  exists (logAuthMsg p :: ev1 ++ ELog LInfo "[alpaca] authenticated successfully" [] :: ev2),
    (armNow c2 + deadlineOffset q).
  reflexivity.
Qed.

Lemma go_split (x y a b : list event) :
  count isGo x = 0%nat -> count isGo y = 0%nat ->
  x ++ EGo :: y = a ++ EGo :: b -> a = x.
Proof.
  revert a. induction x as [|e x IH]; intros a Hx Hy H.
  - destruct a as [|e' a]; [reflexivity |].
    cbn in H. injection H as <- ->.
    rewrite count_app in Hy. cbn in Hy. lia.
  - destruct a as [|e' a]; cbn in H.
    + injection H as -> _. discriminate Hx.
    + injection H as -> H. f_equal. apply IH; [| exact Hy | exact H].
      unfold count in *. cbn in Hx. destruct (isGo e'); [discriminate Hx | exact Hx].
Qed.

Lemma no_go_split (ev a b : list event) :
  count isGo ev = 0%nat -> ev <> a ++ EGo :: b.
Proof.
  intros H ->. rewrite count_app in H. cbn in H. lia.
Qed.

(** X12.  [listen] starts the goroutine of [receiveMessages] at most
    once, and only right after [subscribe] has logged the subscription and
    armed the read deadline; on a path that does not start it, [listen]
    leaves the goroutine, the error channel and the output channel as they
    were. *)
Theorem goroutine_started_after_handshake (d : DialOutcome) (s : State) :
  let '(r, s', ev) := listen d s in
  (count isGo ev <= 1)%nat
  /\ (forall a b, ev = a ++ EGo :: b ->
      exists a' t, a = a' ++ [logSubscribed (this s); ESetReadDeadline t])
  /\ (count isGo ev = 0%nat ->
      pump s' = pump s /\ errorChan s' = errorChan s
      /\ outputChan (this s') = outputChan (this s)).
Proof.
  destruct d as [c hresp | err hresp].
  - rewrite listen_dialed. cbv zeta.
    set (p1 := set_conn (this s) (Some (set_pongHandler c true))).
    assert (Hc1 : conn p1 = Some (set_pongHandler c true)) by reflexivity.
    pose proof (subscribe_events p1 _ Hc1 eq_refl) as H.
    pose proof (subscribe_success_shape p1) as Sh.
    destruct (subscribe p1) as [[r1 p2] ev1]. destruct H as (F & _ & _ & O & N).
    pose proof (preamble_handshake (this s) hresp) as P.
    assert (G1 : count isGo ev1 = 0%nat) by (apply handshake_count; [now intros [] | exact F]).
    assert (G0 : count isGo (preamble (this s) hresp) = 0%nat)
      by (apply handshake_count; [now intros [] | exact P]).
    assert (GC : count isGo (closeEvents c) = 0%nat) by now rewrite closeEvents_count.
    assert (G01 : count isGo (preamble (this s) hresp ++ ev1) = 0%nat)
      by (rewrite count_app; lia).
    assert (Hshape : r1 = Returns None -> forall y a b,
               count isGo y = 0%nat ->
               (preamble (this s) hresp ++ ev1) ++ EGo :: y = a ++ EGo :: b ->
               exists a' t, a = a' ++ [logSubscribed (this s); ESetReadDeadline t]).
    { intros -> y a b Hy Hab. rewrite (go_split _ _ _ _ G01 Hy Hab).
      destruct (Sh p2 ev1 eq_refl) as (ev0 & t & ->).
      exists (preamble (this s) hresp ++ ev0), t. now rewrite app_assoc. }
    destruct r1 as [[e|] | msg |].
    + assert (G : count isGo (preamble (this s) hresp ++ ev1 ++ closeEvents c) = 0%nat)
        by (rewrite !count_app; lia).
      rewrite G. split; [lia |]. split.
      * intros a b Hab. now elim (no_go_split _ a b G).
      * intros _. cbn. now rewrite O.
    + destruct (pingPeriod (this s) <=? 0).
      * rewrite app_assoc.
        assert (G : count isGo ((preamble (this s) hresp ++ ev1) ++ EGo :: closeEvents c)
                    = 1%nat).
        { rewrite count_app, G01.
          change (EGo :: closeEvents c) with ([EGo] ++ closeEvents c).
          rewrite count_app, GC. reflexivity. }
        rewrite G. split; [lia |]. split; [| discriminate].
        intros a b Hab. exact (Hshape eq_refl _ a b GC Hab).
      * pose proof (selectLoop_stretch (sched s)
                      (set_pump (set_errorChan (set_this s p2) []) PumpReading)) as HL.
        destruct (selectLoop (sched s) _) as [[r3 s3] ev3]. destruct HL as [A _].
        assert (G3 : count isGo ev3 = 0%nat)
          by (apply stream_count; [now intros [] | exact (st_events _ _ _ A)]).
        assert (Gy : forall tail, count isGo tail = 0%nat ->
                   count isGo (ENewTicker (pingPeriod (this s)) :: ev3 ++ tail) = 0%nat).
        { intros tail Ht.
          change (ENewTicker (pingPeriod (this s)) :: ev3 ++ tail)
            with ([ENewTicker (pingPeriod (this s))] ++ ev3 ++ tail).
          rewrite !count_app, G3, Ht. reflexivity. }
        assert (GT : count isGo (ETickerStop :: closeEvents c) = 0%nat).
        { change (ETickerStop :: closeEvents c) with ([ETickerStop] ++ closeEvents c).
          rewrite count_app, GC. reflexivity. }
        assert (Hall : forall tail, count isGo tail = 0%nat ->
                   let ev := (preamble (this s) hresp ++ ev1
                              ++ EGo :: ENewTicker (pingPeriod (this s)) :: ev3) ++ tail in
                   (count isGo ev <= 1)%nat
                   /\ (forall a b, ev = a ++ EGo :: b ->
                       exists a' t, a = a' ++ [logSubscribed (this s); ESetReadDeadline t])
                   /\ (count isGo ev = 0%nat ->
                       pump s3 = pump s /\ errorChan s3 = errorChan s
                       /\ outputChan (this s3) = outputChan (this s))).
        { intros tail Ht. cbv zeta. rewrite events_after_go.
          assert (G : count isGo ((preamble (this s) hresp ++ ev1)
                                  ++ EGo :: ENewTicker (pingPeriod (this s)) :: ev3 ++ tail)
                      = 1%nat).
          { rewrite count_app, G01.
            change (EGo :: ?l) with ([EGo] ++ l).
            rewrite count_app, (Gy tail Ht). reflexivity. }
          rewrite G. split; [lia |]. split; [| discriminate].
          intros a b Hab. exact (Hshape eq_refl _ a b (Gy tail Ht) Hab). }
        destruct r3 as [e | msg |].
        -- exact (Hall _ GT).
        -- exact (Hall _ GT).
        -- specialize (Hall [] eq_refl). cbv zeta in Hall. rewrite app_nil_r in Hall.
           exact Hall.
    + now elim (N msg).
    + assert (G : count isGo (preamble (this s) hresp ++ ev1) = 0%nat) by exact G01.
      rewrite G. split; [lia |]. split.
      * intros a b Hab. now elim (no_go_split _ a b G).
      * intros _. cbn. now rewrite O.
  - rewrite listen_failed.
    destruct hresp as [h|].
    + cbv beta iota zeta.
      assert (G : forall x, count isGo (EDial (server (this s)) (2 * Second) :: EBodyReadAll
                                        :: bodyCloseEvents h ++ [x]) =
                            count isGo [x]).
      { intros x. unfold bodyCloseEvents, count. now destruct (bodyCloseErr h). }
      rewrite G. cbn. split; [lia |]. split; [| now intros _].
      intros a b Hab. exfalso. revert Hab. apply no_go_split. now rewrite G.
    + cbn. split; [lia |]. split; [| now intros _].
      intros a b Hab. exfalso. revert Hab. now apply no_go_split.
Qed.

(** *** Where the error of [listen] comes from *)

Lemma wireErr_suffix pre l err : wireErr l err -> wireErr (pre ++ l) err.
Proof.
  intros [H | [now H]]; [left | right; exists now]; apply in_or_app; now right.
Qed.

Lemma nextMessage_wire p b l :
  let '(r, l', ev) := nextMessage (handlePong p b) l in
  (exists pre, l = pre ++ l')
  /\ (forall err, r = Returns (ReadErr err) -> wireErr l err).
Proof.
  induction l as [|[now res | mt pp | e] l IH]; cbn.
  - split; [now exists [] | discriminate].
  - unfold handlePong at 1. destruct b; [destruct res as [e|] |].
    + split; [now exists [Pong now (Some e)] |].
      intros err H. injection H as <-. right. exists now. now left.
    + destruct (nextMessage _ l) as [[r l'] ev]. destruct IH as [[pre ->] IH].
      split; [now exists (Pong now None :: pre) |].
      intros err H. apply (wireErr_suffix [Pong now None]). auto.
    + destruct (nextMessage _ l) as [[r l'] ev]. destruct IH as [[pre ->] IH].
      split; [now exists (Pong now res :: pre) |].
      intros err H. apply (wireErr_suffix [Pong now res]). auto.
  - split; [now exists [Frame mt pp] | discriminate].
  - split; [now exists [Fail e] |].
    intros err H. injection H as <-. left. now left.
Qed.

Lemma sendErr_known W err s :
  known W s -> wireErr W err -> known W (fst (sendErr err s)).
Proof.
  intros (Hc & Hb & Hp) He. unfold sendErr.
  destruct (List.length (errorChan s) <? errorChanCap)%nat; cbn.
  - split; [exact Hc |]. split; [| discriminate].
    apply Forall_app. split; [exact Hb | now constructor].
  - split; [exact Hc |]. split; [exact Hb |].
    intros e H. now injection H as <-.
Qed.

Lemma receiveMessages_known W s : known W s -> known W (fst (receiveMessages s)).
Proof.
  intros K. pose proof K as ((c & pre & Hc & HW) & Hb & Hp).
  unfold receiveMessages. destruct (pump s) eqn:Hpump; try exact K.
  - rewrite (ReadMessage_eq _ _ Hc).
    pose proof (nextMessage_wire (this s) (pongHandler c) (incoming c)) as H.
    destruct (nextMessage _ (incoming c)) as [[r l] ev]. destruct H as [[pre' Hl] Herr].
    assert (Hlink : exists c' pre0,
               conn (set_conn (this s) (Some (set_incoming c l))) = Some c'
               /\ W = pre0 ++ incoming c').
    { exists (set_incoming c l), (pre ++ pre'). split; [reflexivity |].
      cbn. now rewrite HW, Hl, app_assoc. }
    assert (K1 : known W (set_this s (set_conn (this s) (Some (set_incoming c l))))).
    { split; [exact Hlink |]. split; [exact Hb |]. cbn. rewrite Hpump. discriminate. }
    destruct r as [[mt pp | err] | msg |]; cbn.
    + destruct mt; [| exact K1].
      split; [exact Hlink |]. split; [exact Hb | discriminate].
    + pose proof (sendErr_known W err _ K1) as HS.
      destruct (sendErr err _) as [s' ev']. cbn in *. apply HS.
      rewrite HW. apply wireErr_suffix. now apply Herr.
    + split; [exact Hlink |]. split; [exact Hb | discriminate].
    + exact K1.
  - apply sendErr_known; [exact K | now apply Hp].
Qed.

Lemma selectLoop_provenance W cs :
  forall s err,
    known W s ->
    fst (fst (selectLoop cs s)) = Returns err ->
    wireErr W err \/ exists now, In (Tick now (Some err)) cs.
Proof.
  induction cs as [|ch rest IH]; intros s err K; unfold selectLoop; fold selectLoop.
  - discriminate.
  - assert (Later : wireErr W err \/ (exists now, In (Tick now (Some err)) rest) ->
                    wireErr W err \/ exists now, In (Tick now (Some err)) (ch :: rest)).
    { intros [H | [now H]]; [now left | right; exists now; now right]. }
    pose proof K as ((c & pre & Hc & HW) & Hb & Hp).
    destruct ch as [| | now res | |].
    + pose proof (receiveMessages_known W s K) as K1.
      destruct (receiveMessages s) as [s1 ev1]. cbn in K1.
      specialize (IH s1 err K1).
      destruct (selectLoop rest s1) as [[r s2] ev2]. cbn in *. auto.
    + destruct (sending s); [intros H; apply Later; now apply (IH s) |].
      destruct (errorChan s) as [|e buf] eqn:Eb;
        [intros H; apply Later; now apply (IH s) |].
      cbn. intros H. injection H as <-. left. now inversion Hb.
    + destruct (sending s); [intros H; apply Later; now apply (IH s) |].
      unfold WriteControlPing, withConn. rewrite Hc.
      destruct res as [e|].
      * cbn. intros H. injection H as <-. right. exists now. now left.
      * assert (K1 : known W (set_this s (set_conn (this s) (Some c)))).
        { split; [now exists c, pre |]. split; [exact Hb | exact Hp]. }
        specialize (IH _ err K1).
        destruct (selectLoop rest _) as [[r s2] ev2]. cbn in *. auto.
    + destruct (sending s); [intros H; apply Later; now apply (IH s) |].
      destruct (pump s) eqn:Hpump; try (intros H; apply Later; now apply (IH s)).
      assert (K1 : known W (set_sending (set_pump s PumpReading) (Some pp))).
      { split; [now exists c, pre |]. split; [exact Hb | discriminate]. }
      specialize (IH _ err K1).
      destruct (selectLoop rest _) as [[r s2] ev2]. cbn in *. auto.
    + destruct (sending s) as [msg|]; [| intros H; apply Later; now apply (IH s)].
      intros H. apply Later. apply (IH (set_sending (set_this s (send_output (this s) msg)) None));
        [| exact H].
      split; [now exists c, pre |]. split; [exact Hb | exact Hp].
Qed.

Lemma subscribe_outcome p c :
  conn p = Some c ->
  let '(r, p', ev) := subscribe p in
  (forall err, r = Returns (Some err) -> fromTransport c err)
  /\ exists c' pre, conn p' = Some c' /\ incoming c = pre ++ incoming c'.
Proof.
  intros Hc. rewrite subscribe_eq.
  destruct (exchangeMessage_conn (authMsg p) (lit "'authenticated'") p c Hc)
    as (pre1 & l1 & Hl1 & Hp1).
  pose proof (exchangeMessage_failure (authMsg p) (lit "'authenticated'") p c) as F1.
  destruct (exchangeMessage (authMsg p) (lit "'authenticated'") p)
    as [[r1 p1] ev1]; cbn [fst snd] in Hp1.
  set (c1 := set_incoming (set_writes c (tl (writes c))) l1) in *.
  assert (Hc1 : conn p1 = Some c1) by now subst p1.
  assert (Link1 : exists c' pre, conn p1 = Some c' /\ incoming c = pre ++ incoming c')
    by (exists c1, pre1; now split).
  destruct r1 as [[resp [e|]]|msg|]; try (split; [discriminate | exact Link1]).
  - split; [| exact Link1].
    intros err H. injection H as <-.
    destruct (F1 resp e p1 ev1 Hc eq_refl) as [_ Hfrom].
    unfold fromTransport. destruct Hfrom as [Hw | [Hf | Hg]]; auto using hd_In.
  - destruct (exchangeMessage_conn (subMsg p) "streams" p1 c1 Hc1)
      as (pre2 & l2 & Hl2 & Hp2).
    pose proof (exchangeMessage_failure (subMsg p) "streams" p1 c1) as F2.
    destruct (exchangeMessage (subMsg p) "streams" p1)
      as [[r2 p2] ev2]; cbn [fst snd] in Hp2.
    set (c2 := set_incoming (set_writes c1 (tl (writes c1))) l2) in *.
    assert (Hc2 : conn p2 = Some c2) by now subst p2.
    assert (Link2 : exists c' pre, conn p2 = Some c' /\ incoming c = pre ++ incoming c').
    { exists c2, (pre1 ++ pre2). split; [exact Hc2 |].
      rewrite Hl1. subst c1. cbn in Hl2. rewrite Hl2. now rewrite app_assoc. }
    cbv beta iota zeta.
    destruct r2 as [[resp2 [e|]]|msg|]; try (split; [discriminate | exact Link2]).
    + split; [| exact Link2].
      intros err H. injection H as <-.
      destruct (F2 resp2 e p2 ev2 Hc1 eq_refl) as [_ Hfrom].
      unfold fromTransport. subst c1. cbn in Hfrom. rewrite Hl1.
      destruct Hfrom as [Hw | [Hf | [now Hg]]].
      * left. apply In_tl. now apply hd_In.
      * right; left. apply in_or_app. now right.
      * right; right; left. exists now. apply in_or_app. now right.
    + rewrite Hc2. split; [| exact Link2].
      intros err H. injection H as H. unfold fromTransport. auto.
Qed.

(** X13.  After a successful dial, an error that [listen] returns is one
    the transport gave, unchanged: the result of a write of the
    handshake, a failed read, an answer of [SetReadDeadline], or the
    result of the write of a ping.  [listen] wraps no error after the
    dial and makes none of its own. *)
Theorem listen_error_provenance (c : Conn) (hresp : Response) (s : State) (err : error) :
  fst (fst (listen (Dialed c hresp) s)) = Returns (Some err) ->
  fromTransport c err \/ exists now, In (Tick now (Some err)) (sched s).
Proof.
  rewrite listen_dialed. cbv zeta.
  set (p1 := set_conn (this s) (Some (set_pongHandler c true))).
  assert (Hc1 : conn p1 = Some (set_pongHandler c true)) by reflexivity.
  pose proof (subscribe_outcome p1 _ Hc1) as H.
  destruct (subscribe p1) as [[r1 p2] ev1]. destruct H as (Hfrom & c2 & pre & Hc2 & Hpre).
  destruct r1 as [[e|] | msg |]; try discriminate.
  - cbn. intros H. injection H as <-. left. exact (Hfrom e eq_refl).
  - destruct (pingPeriod (this s) <=? 0); [discriminate |].
    assert (K : known (incoming c) (set_pump (set_errorChan (set_this s p2) []) PumpReading)).
    { split; [now exists c2, pre |]. split; [constructor | discriminate]. }
    pose proof (selectLoop_provenance (incoming c) (sched s) _ err K) as HL.
    destruct (selectLoop (sched s) _) as [[[e | msg |] s3] ev3]; try discriminate.
    cbn in *. intros H. injection H as <-.
    destruct (HL eq_refl) as [[Hf | Hp] | Ht]; [left | left | now right];
      unfold fromTransport; auto.
Qed.

(** *** A consumer that does not receive *)







(** *** The address of a remote instance *)

Lemma Split_length s sep : List.length (Split s sep) = S (Count s sep).
Proof.
  induction s as [|c s IH]; cbn; [reflexivity |].
  destruct (Ascii.eqb c sep); cbn; [now rewrite IH |].
  destruct (Split s sep); cbn in *; [discriminate | exact IH].
Qed.

Lemma Count_append a b sep : Count (a +++ b) sep = (Count a sep + Count b sep)%nat.
Proof. induction a as [|c a IH]; cbn; [reflexivity | rewrite IH; lia]. Qed.

(** X15.  [NewRemoteClient] accepts an address exactly when it holds one
    colon, whatever stands around it; the client it returns is in remote
    mode, not connected, and its url is the address between [http://] and
    a slash; an address it refuses is repeated in the error. *)
Theorem NewRemoteClient_one_colon (address : string) :
  let '(c, err) := NewRemoteClient address in
  match c with
  | Some cl =>
    err = None /\ Count address ":" = 1%nat
    /\ url cl = "http://" +++ address +++ "/"
    /\ mode cl = remote /\ rc cl = None
  | None =>
    Count address ":" <> 1%nat
    /\ err = Some (errorString (lit "incorrect URL, need 'hostname:port', have: "
                                +++ address +++ newline))
  end.
Proof.
  unfold NewRemoteClient. cbv zeta. rewrite Split_length.
  destruct (Nat.eqb_spec (S (Count address ":")) 2) as [H | H]; cbn [negb].
  - repeat split. lia.
  - split; [lia | reflexivity].
Qed.

(** X16.  An address that carries the scheme is refused when it names a
    port, and accepted when it does not: the url of the client then holds
    the scheme twice. *)
Theorem NewRemoteClient_scheme (host port : string) :
  fst (NewRemoteClient ("http://" +++ host +++ ":" +++ port)) = None
  /\ (Count host ":" = 0%nat ->
      option_map url (fst (NewRemoteClient ("http://" +++ host)))
      = Some ("http://http://" +++ host +++ "/")).
Proof.
  split.
  - unfold NewRemoteClient. cbv zeta. rewrite Split_length.
    assert (H : (2 <= Count ("http://" +++ host +++ ":" +++ port) ":")%nat).
    { rewrite !Count_append.
      change (Count "http://" ":") with 1%nat. change (Count ":" ":") with 1%nat. lia. }
    destruct (Nat.eqb_spec (S (Count ("http://" +++ host +++ ":" +++ port) ":")) 2)
      as [E | E]; [lia | reflexivity].
  - intros H. unfold NewRemoteClient. cbv zeta. rewrite Split_length.
    assert (E : Count ("http://" +++ host) ":" = 1%nat).
    { rewrite Count_append, H. reflexivity. }
    rewrite E. reflexivity.
Qed.


End Client.

(** * Sample runs *)

Example quote_plain : Quote noWide "Q.VOO" = lit "'Q.VOO'".
Proof. reflexivity. Qed.

Example quote_escapes :
  Quote noWide (String dquote (String "010"%char "\")) = String dquote ("\" +++ String dquote ("\n\\" +++ String dquote "")).
Proof. reflexivity. Qed.

Example sprintfq_two :
  SprintfQ noWide ["Q.VOO"; "T.AAPL"] = lit "['Q.VOO' 'T.AAPL']".
Proof. reflexivity. Qed.

Example subMsg_two :
  subMsg noWide (NewAlpacaWebSocket (mkConfig "wss://example" "KEY" "SECRET" ["Q.VOO"; "T.AAPL"]) [])
  = lit "{'action': 'listen', 'data': {'streams': ['Q.VOO','T.AAPL']}}".
Proof. reflexivity. Qed.

Example authMsg_sample :
  authMsg sampleClient = lit "{'action': 'auth', 'key': 'KEY', 'secret': 'SECRET'}".
Proof. reflexivity. Qed.

Example itoa_samples : Itoa 403 = "403" /\ Itoa (-5) = "-5" /\ Itoa 0 = "0".
Proof. repeat split; reflexivity. Qed.

Example contains_samples :
  Contains accepted (lit "'authenticated'") = true
  /\ Contains rejected (lit "'authenticated'") = false
  /\ Contains "abc" "" = true.
Proof. repeat split; reflexivity. Qed.

Example default_offset : deadlineOffset sampleClient = 12000000000.
Proof. reflexivity. Qed.

(** A dial refused with status 403 and body [forbidden]. *)
Example dial_forbidden :
  fst (fst (listen noWide
              (DialFailed errBadHandshake (Some (mkResponse 403 "forbidden" None)))
              (start sampleClient [])))
  = Returns (Some (wrapError
      "[alpaca] connection failure, err: websocket: bad handshake, status_code: 403, body: forbidden"
      errBadHandshake)).
Proof. reflexivity. Qed.

(** The handshake succeeds, frames are streamed, the read fails. *)
Example streaming_run :
  let '(r, s', ev) := run noWide (Dialed (sampleConn streamWire) upgraded)
                        (start sampleClient streamSchedule) in
  r = Returns (Some errClosed)
  /\ outputChan (this s') = ["a"; "c"]
  /\ pump s' = PumpExited
  /\ closes ev = 1%nat
  /\ deadlines ev = [12000000007; 12000000100; 12000000050].
Proof. vm_compute. repeat split. Qed.

(** * The properties at sample inputs *)


Lemma forwarded_text_frames_witness :
  let '(r, s', ev) := listen noWide (Dialed (sampleConn streamWire) upgraded)
                        (start sampleClient streamSchedule) in
  outputChan (this s') ++ inFlight s'
  = outputChan sampleClient ++ textPayloads (streamed ev).
Proof.
  pose proof (forwarded_text_frames noWide (Dialed (sampleConn streamWire) upgraded)
                sampleClient streamSchedule) as [H _].
  vm_compute in H |- *. exact (proj1 H).
Defined.

(** C3 as stated fails when a ping cannot be written: the goroutine has
    read the text frame [a] and waits in [out <- pp], the ticker fires,
    [WriteControl] fails, [listen] returns, and [a] is never sent on
    [p.outputChan]. *)
Lemma ping_failure_drops_read_frame :
  let '(r, s', ev) := listen noWide (Dialed (sampleConn pendingWire) upgraded)
                        (start sampleClient [Pump; Tick 60 (Some errBrokenPipe)]) in
  r = Returns (Some errBrokenPipe)
  /\ textPayloads (streamed ev) = ["a"]
  /\ outputChan (this s') = []
  /\ outputChan (this s') <> outputChan sampleClient ++ textPayloads (streamed ev).
Proof. vm_compute. repeat split. discriminate. Qed.

Lemma read_deadline_arming_witness :
  let '(r, s', ev) := run noWide (Dialed (sampleConn streamWire) upgraded)
                        (start sampleClient streamSchedule) in
  deadlines ev = armings 12000000000 100 ev.
Proof.
  pose proof (read_deadline_arming noWide (Dialed (sampleConn streamWire) upgraded)
                (start sampleClient streamSchedule)) as [H _].
  vm_compute in H |- *. exact H.
Defined.

Lemma errorChan_single_deposit_witness :
  let '(r, s', ev) := run noWide (Dialed (sampleConn streamWire) upgraded)
                        (start sampleClient streamSchedule) in
  (errorSends ev <= 1)%nat.
Proof.
  pose proof (errorChan_single_deposit noWide (Dialed (sampleConn streamWire) upgraded)
                sampleClient streamSchedule) as [H _].
  vm_compute in H |- *. exact (proj1 H).
Defined.

Lemma subscribe_logs_credentials_witness :
  Contains (authMsg sampleClient) "KEY" = true
  /\ Contains (authMsg sampleClient) "SECRET" = true.
Proof.
  pose proof (subscribe_logs_credentials noWide sampleClient) as (_ & Hk & Hs & _).
  exact (conj Hk Hs).
Defined.



(** The dial is refused with status 403 and body [forbidden]. *)
Lemma listen_dial_failure_with_response_witness :
  exists e s' ev,
    listen noWide (DialFailed errBadHandshake (Some (mkResponse 403 "forbidden" None)))
      (start sampleClient [])
    = (Returns (Some e), s', ev)
    /\ Error e
       = "[alpaca] connection failure, err: websocket: bad handshake, status_code: 403, body: forbidden"
    /\ Unwrap e = Some errBadHandshake
    /\ List.length (filter isBodyClose ev) = 1%nat.
Proof.
  destruct (listen_dial_failure_with_response noWide (start sampleClient []) errBadHandshake
              (mkResponse 403 "forbidden" None))
    as (ev & Hrun & _ & Hwrap & _ & _ & Hclose & _ & Hdigits).
  eexists. eexists. exists ev. split; [exact Hrun |].
  split; [| split; [exact Hwrap | exact Hclose]].
  refine (eq_trans (Hdigits _) _); [split; discriminate | reflexivity].
Defined.

Lemma subMsg_space_in_topic_witness :
  subMsg noWide spacedClient
  = lit "{'action': 'listen', 'data': {'streams': ['T.BRK,B']}}".
Proof. exact (proj1 (subMsg_space_in_topic noWide spacedClient eq_refl)). Defined.

Example remote_addresses :
  NewRemoteClient "localhost:5993"
  = (Some (mkClient false terminal remote "http://localhost:5993/" None "" ""), None)
  /\ fst (NewRemoteClient "localhost") = None
  /\ fst (NewRemoteClient "[::1]:5993") = None
  /\ option_map url (fst (NewRemoteClient ":")) = Some "http://:/".
Proof. repeat split; reflexivity. Qed.

Lemma listen_does_not_panic_witness :
  fst (fst (listen noWide (Dialed (sampleConn streamWire) upgraded)
              (start sampleClient streamSchedule)))
  <> Panics nilDereference.
Proof.
  apply (listen_does_not_panic noWide (sampleConn streamWire) upgraded
           (start sampleClient streamSchedule) nilDereference).
  reflexivity.
Defined.

Lemma authMsg_not_escaped_witness :
  authMsg splicedKeyClient = authMsg splicedSecretClient
  /\ apiKey splicedKeyClient <> apiKey splicedSecretClient.
Proof.
  apply (authMsg_not_escaped splicedKeyClient splicedSecretClient "X"); reflexivity.
Defined.

Lemma deadlineOffset_margin_witness :
  deadlineOffset sampleClient = 12 * Second
  /\ pingPeriod sampleClient <= deadlineOffset sampleClient.
Proof.
  pose proof (deadlineOffset_margin sampleClient) as H.
  assert (H0 : 0 <= pingPeriod sampleClient) by (vm_compute; discriminate).
  assert (H1 : pingPeriod sampleClient * 6 < 2 ^ 63) by reflexivity.
  destruct (H H0 H1) as (E & L & _).
  split; [exact E | exact L].
Defined.

Lemma deadlineOffset_overflow_witness :
  deadlineOffset longPeriodClient = - (2 ^ 62 / 5) /\ deadlineOffset longPeriodClient <= 0.
Proof.
  pose proof (deadlineOffset_overflow longPeriodClient) as H.
  assert (H0 : 2 ^ 63 <= pingPeriod longPeriodClient * 6 < 2 ^ 64)
    by (split; [vm_compute; discriminate | reflexivity]).
  destruct (H H0) as (E & L).
  split; [exact E | exact L].
Defined.

Lemma subscribe_without_connection_witness :
  subscribe noWide sampleClient
  = (Panics nilDereference, sampleClient, [logAuthMsg sampleClient]).
Proof. apply (subscribe_without_connection noWide sampleClient). reflexivity. Defined.

Lemma subMsg_plain_topics_witness :
  subMsg noWide sampleClient
  = lit "{'action': 'listen', 'data': {'streams': ['Q.VOO']}}".
Proof. apply (subMsg_plain_topics noWide sampleClient). reflexivity. Defined.

Lemma subscribe_write_order_witness :
  let p := set_conn sampleClient (Some (sampleConn streamWire)) in
  let '(r, p', ev) := subscribe noWide p in
  writesOf ev = [authMsg p; subMsg noWide p].
Proof.
  pose proof (subscribe_write_order noWide
                (set_conn sampleClient (Some (sampleConn streamWire)))
                (sampleConn streamWire) eq_refl) as H.
  revert H. vm_compute. intros _. reflexivity.
Defined.

Lemma listen_error_provenance_witness :
  fromTransport (sampleConn streamWire) errClosed
  \/ exists now, In (Tick now (Some errClosed)) streamSchedule.
Proof.
  apply (listen_error_provenance noWide (sampleConn streamWire) upgraded
           (start sampleClient streamSchedule) errClosed).
  vm_compute. reflexivity.
Defined.

